(** * sing-geosite: the geosite.dat to sing-box rule conversion pipeline

    A shallow embedding of [sing-geosite/main.go] and a verification of the
    properties its specification states about it.

    Go maps are stdpp [gmap]s, slices are lists, Go strings are byte strings
    ([string] of [ascii]), [int32] enum values are integers in [Z]; the
    network, the file system and the process environment are collaborators
    gathered in the [Runtime] class, and every call made to them is recorded
    in a trace. *)

From Stdlib Require Import ZArith Strings.Byte Strings.Ascii.
From stdpp Require Import gmap strings list fin_maps.

Local Open Scope Z_scope.

(** ** The Go [strings] package, as far as main.go uses it *)

(** [strings.Contains(s, substr)]: [substr] occurs in [s] as a contiguous
    run of bytes.  The empty string occurs in every string. *)
Fixpoint Contains (s substr : string) : bool :=
  String.prefix substr s ||
  match s with
  | EmptyString => false
  | String _ s' => Contains s' substr
  end.

(** [strings.ToLower] on its ASCII path: the bytes 'A'..'Z' are moved to
    'a'..'z' and every other byte, those of multi-byte runes included, is
    kept.  The pipeline itself is stated over any [ToLower] (see [Runtime]);
    this one instantiates it on concrete feeds. *)
Definition lower_byte (c : ascii) : ascii :=
  let n := N_of_ascii c in
  if ((65 <=? n) && (n <=? 90))%N then ascii_of_N (n + 32) else c.

Fixpoint ToLowerASCII (s : string) : string :=
  match s with
  | EmptyString => EmptyString
  | String c s' => String (lower_byte c) (ToLowerASCII s')
  end.

(** ** Upstream records: v2ray's [routercommon] protobuf messages *)

(** [routercommon.Domain_Type] is an [int32] protobuf enum; the decoder
    keeps a number it does not know, so a record may carry any value. *)
Definition Domain_Type := Z.

(** Modelled from the spec: the four values of [routercommon.Domain_Type]
    (declared in v2ray-core's generated code, not in this repository), in
    the order of §3's enumeration Plain, Regex, RootDomain, Full. *)
Definition Domain_Plain : Domain_Type := 0.
Definition Domain_Regex : Domain_Type := 1.
Definition Domain_RootDomain : Domain_Type := 2.
Definition Domain_Full : Domain_Type := 3.

(** Modelled from the spec: the messages of v2ray-core's [routercommon]
    package (generated code, not in this repository), with the fields
    main.go reads: a record has a country code and an ordered sequence of
    domain entries (§6), a domain entry a type, a value and attributes (§3),
    an attribute a key.  [Domain.Attribute] is a slice, so a list: a key may
    come more than once.  An attribute also carries a value (a protobuf
    oneof), which main.go never reads. *)
Inductive Attribute_TypedValue :=
  | BoolValue (b : bool)
  | IntValue (i : Z).

Module Attribute.
Record t := mk { Key : string; TypedValue : option Attribute_TypedValue }.
End Attribute.

Module Domain.
Record t := mk {
  Type_ : Domain_Type;
  Value : string;
  Attribute : list Attribute.t
}.
End Domain.

Module GeoSite.
Record t := mk { CountryCode : string; Domain : list Domain.t }.
End GeoSite.

(** [Type] is reserved in Rocq: the Go field [Type] is [Type_] here. *)

(** ** sing-box's [geosite] package: rule items and their compilation *)

(** Modelled from the spec: [geosite.ItemType], the kind of a Rule Item
    (§3: enum{Domain, DomainSuffix, DomainKeyword, DomainRegex}); the
    package is a dependency, not part of this repository. *)
Inductive ItemType :=
  | RuleTypeDomain
  | RuleTypeDomainSuffix
  | RuleTypeDomainKeyword
  | RuleTypeDomainRegex.

(** Modelled from the spec: [geosite.Item], a Rule Item (§3: kind and
    value, equal when both are). *)
Module Item.
Record t := mk { Type_ : ItemType; Value : string }.
End Item.

#[global] Instance ItemType_eq_dec : EqDecision ItemType.
Proof. solve_decision. Defined.

#[global] Instance Item_eq_dec : EqDecision Item.t.
Proof. solve_decision. Defined.

Definition ItemType_code (k : ItemType) : nat :=
  match k with
  | RuleTypeDomain => 0
  | RuleTypeDomainSuffix => 1
  | RuleTypeDomainKeyword => 2
  | RuleTypeDomainRegex => 3
  end.

Definition ItemType_of_code (n : nat) : ItemType :=
  match n with
  | O => RuleTypeDomain
  | 1%nat => RuleTypeDomainSuffix
  | 2%nat => RuleTypeDomainKeyword
  | _ => RuleTypeDomainRegex
  end.

#[global] Instance ItemType_countable : Countable ItemType.
Proof.
  apply (inj_countable' ItemType_code ItemType_of_code).
  by intros [].
Defined.

#[global] Instance Item_countable : Countable Item.t.
Proof.
  apply (inj_countable' (λ i, (Item.Type_ i, Item.Value i))
                        (λ p, Item.mk p.1 p.2)).
  by intros [].
Defined.

(** Modelled from the spec: the Compiled Rule Buckets of §3, which are the
    four fields of sing-box's [option.DefaultRule] that main.go copies into
    its headless rule. *)
Module DefaultRule.
Record t := mk {
  Domain : list string;
  DomainSuffix : list string;
  DomainKeyword : list string;
  DomainRegex : list string
}.
End DefaultRule.

(** Modelled from the spec: [geosite.Compile] (sing-box, not in this
    repository).  §4.5: the item list is split into four ordered buckets by
    kind, each value appended to the bucket of its item's kind, in the order
    of the input list. *)
Definition Compile_step (rule : DefaultRule.t) (item : Item.t) : DefaultRule.t :=
  let '(DefaultRule.mk d s k r) := rule in
  match Item.Type_ item with
  | RuleTypeDomain => DefaultRule.mk (d ++ [Item.Value item]) s k r
  | RuleTypeDomainSuffix => DefaultRule.mk d (s ++ [Item.Value item]) k r
  | RuleTypeDomainKeyword => DefaultRule.mk d s (k ++ [Item.Value item]) r
  | RuleTypeDomainRegex => DefaultRule.mk d s k (r ++ [Item.Value item])
  end.

(** Modelled from the spec: [geosite.Compile], the pass of [Compile_step]
    over the item list, from four empty buckets. *)
Definition Compile (code : list Item.t) : DefaultRule.t :=
  foldl Compile_step (DefaultRule.mk [] [] [] []) code.

(** The bucket of a compiled rule that holds the values of kind [k]. *)
Definition bucket (k : ItemType) (rule : DefaultRule.t) : list string :=
  match k with
  | RuleTypeDomain => DefaultRule.Domain rule
  | RuleTypeDomainSuffix => DefaultRule.DomainSuffix rule
  | RuleTypeDomainKeyword => DefaultRule.DomainKeyword rule
  | RuleTypeDomainRegex => DefaultRule.DomainRegex rule
  end.

(** The items a compiled rule stands for: each bucket's values tagged
    with the bucket's kind, bucket after bucket. *)
Definition rule_items (rule : DefaultRule.t) : list Item.t :=
  (Item.mk RuleTypeDomain <$> DefaultRule.Domain rule) ++
  (Item.mk RuleTypeDomainSuffix <$> DefaultRule.DomainSuffix rule) ++
  (Item.mk RuleTypeDomainKeyword <$> DefaultRule.DomainKeyword rule) ++
  (Item.mk RuleTypeDomainRegex <$> DefaultRule.DomainRegex rule).

(** ** sing's [common] package *)

(** Modelled from the spec: the loop of [common.Uniq] (sagernet/sing, not
    in this repository).  §4.2: one pass over the input in order; an item
    equal to one already seen is skipped, any other is appended to the
    output and remembered.  [T] has decidable equality, as Go's
    [comparable]. *)
Fixpoint Uniq_from {T} `{EqDecision T} (seen : list T) (arr : list T) : list T :=
  match arr with
  | [] => []
  | item :: rest =>
      if decide (item ∈ seen) then Uniq_from seen rest
      else item :: Uniq_from (item :: seen) rest
  end.

(** Modelled from the spec: [common.Uniq], the pass of [Uniq_from] with
    nothing seen yet. *)
Definition Uniq {T} `{EqDecision T} (arr : list T) : list T := Uniq_from [] arr.

(** ** Results and errors *)

Definition error := string.

(** What a Go call comes to: a value ([err == nil]), an error, or a
    run-time panic (a nil pointer dereference). *)
Inductive result (A : Type) :=
  | Ok (a : A)
  | Err (e : error)
  | Panic (msg : string).

Arguments Ok {A} a.
Arguments Err {A} e.
Arguments Panic {A} msg.

(** ** Releases and rule sets *)

(** [github.RepositoryRelease] (go-github), with the field [release]
    reads: [Name] is a [*string], nil when the release carries no name. *)
Module RepositoryRelease.
Record t := mk { Name : option string }.
End RepositoryRelease.

(** sing-box's [option.DefaultHeadlessRule], [option.HeadlessRule] and
    [option.PlainRuleSet], with the fields main.go assigns (lines 217-229);
    §6 gives the rule-set writers these four lists. *)
Module DefaultHeadlessRule.
Record t := mk {
  Domain : list string;
  DomainSuffix : list string;
  DomainKeyword : list string;
  DomainRegex : list string
}.
End DefaultHeadlessRule.

Module HeadlessRule.
Record t := mk { Type_ : string; DefaultOptions : DefaultHeadlessRule.t }.
End HeadlessRule.

Module PlainRuleSet.
Record t := mk { Rules : list HeadlessRule.t }.
End PlainRuleSet.

(** [C.RuleTypeDefault] of sing-box's constant package. *)
Definition RuleTypeDefault : string := "default".

(** ** Effects: the trace of calls to the outside *)

(** One event per call main.go makes to the network, the file system, the
    logger and the standard streams, in the order they are made. *)
Inductive event :=
  | Fetch (from : string)
  | Download (release : RepositoryRelease.t)
  | LogInfo (msg : string)
  | LogWarn (msg : string)
  | LogFatal (msg : error)
  | Stdout (s : string)
  | Stderr (s : string)
  | Create (path : string)
  | Close (path : string)
  | WriteDB (path : string) (domainMap : gmap string (list Item.t))
  | RemoveAll (path : string)
  | MkdirAll (path : string)
  | WriteSRS (path : string) (ruleSet : PlainRuleSet.t)
  | EncodeJSON (path : string) (escapeHTML : bool) (indent : string)
               (ruleSet : PlainRuleSet.t).

(** The collaborators main.go calls and this development does not embed:
    Go's [strings.ToLower] and [proto.Unmarshal], the process environment,
    the GitHub API behind [fetch], the checksummed download behind
    [download], path resolution, and the failures of the file system and
    of the artifact writers ([io_error] gives the error a call returns,
    if any). *)
Class Runtime := {
  ToLower : string → string;
  Unmarshal : list byte → result (list GeoSite.t);
  Getenv : string → string;
  fetch : string → result RepositoryRelease.t;
  download : RepositoryRelease.t → result (list byte);
  Abs : string → string;
  Join : string → string → string;
  io_error : event → option error
}.

(** A computation: the events it produced and what it came to. *)
Definition M (A : Type) : Type := list event * result A.

#[global] Instance M_ret : MRet M := λ A a, ([], Ok a).

#[global] Instance M_bind : MBind M := λ A B f m,
  match m with
  | (t, Ok a) => let '(t', r) := f a in (t ++ t', r)
  | (t, Err e) => (t, Err e)
  | (t, Panic msg) => (t, Panic msg)
  end.

(** A call that cannot fail. *)
Definition emit (ev : event) : M unit := ([ev], Ok tt).

(** A call to a collaborator, with the result it gives. *)
Definition call {A} (ev : event) (r : result A) : M A := ([ev], r).

(** A call that fails when the runtime says so. *)
Definition perform `{Runtime} (ev : event) : M unit :=
  call ev (match io_error ev with Some e => Err e | None => Ok tt end).

(** A pure result inside a computation. *)
Definition lift {A} (r : result A) : M A := ([], r).

(** Go's [if err != nil] on a call whose error is handled, not returned. *)
Definition attempt {A} (m : M A) : M (error + A) :=
  match m with
  | (t, Ok a) => (t, Ok (inr a))
  | (t, Err e) => (t, Ok (inl e))
  | (t, Panic msg) => (t, Panic msg)
  end.

(** [defer]: the call [ev] runs when [body] returns, whatever it returns. *)
Definition defer {A} (ev : event) (body : M A) : M A :=
  let '(t, r) := body in (t ++ [ev], r).

(** Dereferencing a [*string]. *)
Definition deref (p : option string) : M string :=
  match p with
  | Some s => mret s
  | None => lift (Panic "invalid memory address or nil pointer dereference")
  end.

(** A [for ... range] loop that returns at the first error. *)
Fixpoint for_each {A} (body : A → M unit) (l : list A) : M unit :=
  match l with
  | [] => mret tt
  | x :: l' => body x;; for_each body l'
  end.

Definition LF : string := String "010"%char EmptyString.

(** ** main.go *)

Section Pipeline.
Context `{Runtime}.

(** [attributes[attribute.Key] = append(attributes[attribute.Key], domain)]
    (line 102); a key that is not in the map reads as the nil slice. *)
Definition add_attribute (domain : Domain.t)
    (attributes : gmap string (list Domain.t)) (attribute : Attribute.t)
    : gmap string (list Domain.t) :=
  <[Attribute.Key attribute :=
      default [] (attributes !! Attribute.Key attribute) ++ [domain]]> attributes.

(** The [switch domain.Type] of lines 105-132, as it acts on [domains].
    A type that matches no case leaves [domains] as it is. *)
Definition append_domain (domains : list Item.t) (domain : Domain.t) : list Item.t :=
  if Domain.Type_ domain =? Domain_Plain then
    domains ++ [Item.mk RuleTypeDomainKeyword (Domain.Value domain)]
  else if Domain.Type_ domain =? Domain_Regex then
    domains ++ [Item.mk RuleTypeDomainRegex (Domain.Value domain)]
  else if Domain.Type_ domain =? Domain_RootDomain then
    let domains :=
      if Contains (Domain.Value domain) "." then
        domains ++ [Item.mk RuleTypeDomain (Domain.Value domain)]
      else domains in
    domains ++ [Item.mk RuleTypeDomainSuffix ("." +:+ Domain.Value domain)]
  else if Domain.Type_ domain =? Domain_Full then
    domains ++ [Item.mk RuleTypeDomain (Domain.Value domain)]
  else domains.

(** The second [switch domain.Type], of lines 138-165, as it acts on
    [attributeDomains]. *)
Definition append_attribute_domain (attributeDomains : list Item.t)
    (domain : Domain.t) : list Item.t :=
  if Domain.Type_ domain =? Domain_Plain then
    attributeDomains ++ [Item.mk RuleTypeDomainKeyword (Domain.Value domain)]
  else if Domain.Type_ domain =? Domain_Regex then
    attributeDomains ++ [Item.mk RuleTypeDomainRegex (Domain.Value domain)]
  else if Domain.Type_ domain =? Domain_RootDomain then
    let attributeDomains :=
      if Contains (Domain.Value domain) "." then
        attributeDomains ++ [Item.mk RuleTypeDomain (Domain.Value domain)]
      else attributeDomains in
    attributeDomains ++
      [Item.mk RuleTypeDomainSuffix ("." +:+ Domain.Value domain)]
  else if Domain.Type_ domain =? Domain_Full then
    attributeDomains ++ [Item.mk RuleTypeDomain (Domain.Value domain)]
  else attributeDomains.

(** The body of the loop over [vGeositeEntry.Domain] (lines 99-133), on the
    pair of [domains] and [attributes]. *)
Definition domain_step (st : list Item.t * gmap string (list Domain.t))
    (domain : Domain.t) : list Item.t * gmap string (list Domain.t) :=
  let '(domains, attributes) := st in
  let attributes :=
    if (0 <? length (Domain.Attribute domain))%nat then
      foldl (add_attribute domain) attributes (Domain.Attribute domain)
    else attributes in
  (append_domain domains domain, attributes).

(** [domains] and [attributes] when that loop ends. *)
Definition scan_domains (l : list Domain.t)
    : list Item.t * gmap string (list Domain.t) :=
  foldl domain_step ([], ∅) l.

(** The body of the loop over [attributes] (lines 135-168): one
    pseudo-category is written. *)
Definition attribute_step (code : string) (domainMap : gmap string (list Item.t))
    (kv : string * list Domain.t) : gmap string (list Item.t) :=
  let '(attribute, attributeEntries) := kv in
  let attributeDomains := foldl append_attribute_domain [] attributeEntries in
  <[code +:+ "@" +:+ attribute := Uniq attributeDomains]> domainMap.

(** The pseudo-categories written for the side table [attributes], taken
    in the order of the list [order].  Go ranges over a map in an order it
    does not fix; [write_attributes_perm] shows the order does not matter. *)
Definition write_attributes (code : string) (order : list (string * list Domain.t))
    (domainMap : gmap string (list Item.t)) : gmap string (list Item.t) :=
  foldl (attribute_step code) domainMap order.

(** The body of the loop over [vGeositeList.Entry] (lines 95-169). *)
Definition parse_entry (domainMap : gmap string (list Item.t))
    (vGeositeEntry : GeoSite.t) : gmap string (list Item.t) :=
  let code := ToLower (GeoSite.CountryCode vGeositeEntry) in
  let '(domains, attributes) := scan_domains (GeoSite.Domain vGeositeEntry) in
  let domainMap := <[code := Uniq domains]> domainMap in
  write_attributes code (map_to_list attributes) domainMap.

(** Lines 94-170: the category map of a decoded record list. *)
Definition parse_entries (entries : list GeoSite.t) : gmap string (list Item.t) :=
  foldl parse_entry ∅ entries.

(** [parse] (lines 88-171). *)
Definition parse (vGeositeData : list byte) : result (gmap string (list Item.t)) :=
  match Unmarshal vGeositeData with
  | Ok entries => Ok (parse_entries entries)
  | Err e => Err e
  | Panic msg => Panic msg
  end.

(** [cnCodes] (lines 193-197). *)
Definition cnCodes : list string :=
  ["cn"; "geolocation-!cn"; "category-companies@cn"].

(** The subset loop of lines 198-201:
    [cnDomainMap[cnCode] = domainMap[cnCode]]; a key that is not in
    [domainMap] reads as the nil slice and is assigned all the same. *)
Definition cnDomainMap (domainMap : gmap string (list Item.t))
    : gmap string (list Item.t) :=
  foldl (λ cnDomainMap cnCode,
           <[cnCode := default [] (domainMap !! cnCode)]> cnDomainMap)
        ∅ cnCodes.

(** Lines 217-229: the rule set of one category. *)
Definition plainRuleSet (domains : list Item.t) : PlainRuleSet.t :=
  let defaultRule := Compile domains in
  let headlessRule :=
    DefaultHeadlessRule.mk (DefaultRule.Domain defaultRule)
                           (DefaultRule.DomainSuffix defaultRule)
                           (DefaultRule.DomainKeyword defaultRule)
                           (DefaultRule.DomainRegex defaultRule) in
  PlainRuleSet.mk [HeadlessRule.mk RuleTypeDefault headlessRule].

(** The body of the loop over [domainMap] (lines 216-258): the binary and
    the JSON rule set of one category. *)
Definition write_rule_set (ruleSetOutput : string)
    (kv : string * list Item.t) : M unit :=
  let '(code, domains) := kv in
  let plainRuleSet := plainRuleSet domains in
  let srsPath := Abs (Join ruleSetOutput ("geosite-" +:+ code +:+ ".srs")) in
  emit (Stderr ("write " +:+ srsPath +:+ LF));;
  perform (Create srsPath);;
  defer (Close srsPath) (perform (WriteSRS srsPath plainRuleSet));;
  let srsPath := Abs (Join ruleSetOutput ("geosite-" +:+ code +:+ ".json")) in
  emit (Stderr ("write " +:+ srsPath +:+ LF));;
  perform (Create srsPath);;
  defer (Close srsPath) (perform (EncodeJSON srsPath false "    " plainRuleSet)).

(** [generate] (lines 173-260).  The loop over [domainMap] takes the
    categories in the order of [map_to_list]. *)
Definition generate (release : RepositoryRelease.t)
    (output cnOutput ruleSetOutput : string) : M unit :=
  vData ← call (Download release) (download release);
  domainMap ← lift (parse vData);
  emit (Stderr ("write " +:+ Abs output +:+ LF));;
  perform (Create output);;
  defer (Close output) (
    perform (WriteDB output domainMap);;
    perform (Create cnOutput);;
    defer (Close cnOutput) (
      perform (WriteDB cnOutput (cnDomainMap domainMap));;
      emit (RemoveAll ruleSetOutput);;
      perform (MkdirAll ruleSetOutput);;
      for_each (write_rule_set ruleSetOutput) (map_to_list domainMap))).

(** [setActionOutput] (lines 262-264). *)
Definition setActionOutput (name content : string) : M unit :=
  emit (Stdout ("::set-output name=" +:+ name +:+ "::" +:+ content +:+ LF)).

(** The freshness test of line 275, [&&] evaluated left to right: the
    names are dereferenced only when NO_SKIP does not force generation. *)
Definition already_latest (sourceRelease destinationRelease : RepositoryRelease.t)
    : M bool :=
  if String.eqb (Getenv "NO_SKIP") "true" then mret false
  else
    destinationName ← deref (RepositoryRelease.Name destinationRelease);
    sourceName ← deref (RepositoryRelease.Name sourceRelease);
    mret (Contains destinationName sourceName).

(** [release] (lines 266-287). *)
Definition release (source destination output cnOutput ruleSetOutput : string)
    : M unit :=
  sourceRelease ← call (Fetch source) (fetch source);
  destinationRelease ← attempt (call (Fetch destination) (fetch destination));
  skip ← match destinationRelease with
         | inl _ => emit (LogWarn "missing destination latest release");; mret false
         | inr destinationRelease => already_latest sourceRelease destinationRelease
         end;
  if skip : bool then
    emit (LogInfo "already latest");;
    setActionOutput "skip" "true"
  else
    generate sourceRelease output cnOutput ruleSetOutput;;
    sourceName ← deref (RepositoryRelease.Name sourceRelease);
    setActionOutput "tag" sourceName.

(** [main] (lines 289-300). *)
Definition main : M unit :=
  err ← attempt (release "Loyalsoldier/v2ray-rules-dat" "minoriazure/sing-geosite"
                         "geosite.db" "geosite-cn.db" "rule-set");
  match err with
  | inl e => emit (LogFatal e)
  | inr _ => mret tt
  end.

End Pipeline.

(** ** Properties of the library functions *)

(** *** [strings.Contains] *)

Lemma app_empty (s : string) : "" +:+ s = s.
Proof. reflexivity. Qed.

Lemma app_String (c : ascii) (s t : string) :
  String c s +:+ t = String c (s +:+ t).
Proof. reflexivity. Qed.

Lemma prefix_spec (sub s : string) :
  String.prefix sub s = true ↔ ∃ post, s = sub +:+ post.
Proof.
  revert sub. induction s as [|c' s IH]; intros [|c sub]; simpl.
  - split; [by exists EmptyString | done].
  - split; [done | by intros [post Hpost]].
  - split; [by exists (String c' s) | done].
  - destruct (Ascii.ascii_dec c c') as [->|Hne].
    + rewrite IH. split; intros [post Hpost]; exists post;
        rewrite app_String in *; congruence.
    + split; [done | intros [post Hpost]; rewrite app_String in Hpost; congruence].
Qed.

Lemma Contains_empty (substr : string) :
  Contains "" substr = String.prefix substr "".
Proof. unfold Contains. apply orb_false_r. Qed.

Lemma Contains_String (c : ascii) (s substr : string) :
  Contains (String c s) substr =
  String.prefix substr (String c s) || Contains s substr.
Proof. reflexivity. Qed.

(** [Contains s substr] holds exactly when [s] is some bytes, then
    [substr], then some bytes. *)
Lemma Contains_spec (s substr : string) :
  Contains s substr = true ↔ ∃ pre post, s = pre +:+ substr +:+ post.
Proof.
  induction s as [|c s IH]; [rewrite Contains_empty | rewrite Contains_String].
  - rewrite prefix_spec. split.
    + intros [post Hpost]. by exists EmptyString, post.
    + intros ([|c pre] & post & Hs); [by exists post | done].
  - rewrite orb_true_iff, prefix_spec, IH. split.
    + intros [[post Hpost] | (pre & post & Hs)].
      * by exists EmptyString, post.
      * exists (String c pre), post. by rewrite app_String, Hs.
    + intros ([|c' pre] & post & Hs).
      * left. by exists post.
      * right. exists pre, post. rewrite app_String in Hs. congruence.
Qed.

Lemma Contains_false (s substr : string) :
  Contains s substr = false ↔ ¬ ∃ pre post, s = pre +:+ substr +:+ post.
Proof. rewrite <-Contains_spec. by destruct (Contains s substr). Qed.

(** *** [common.Uniq] *)

Section Uniq.
Context {T : Type} `{EqDecision T}.
Implicit Types (l seen : list T) (x : T).

Lemma elem_of_Uniq_from seen l x : x ∈ Uniq_from seen l ↔ x ∈ l ∧ x ∉ seen.
Proof.
  revert seen. induction l as [|y l IH]; intros seen; simpl.
  - rewrite elem_of_nil. tauto.
  - destruct (decide (y ∈ seen)) as [Hin|Hnin].
    + rewrite IH, elem_of_cons. split; [tauto|].
      intros [[->|?] ?]; tauto.
    + rewrite !elem_of_cons, IH, elem_of_cons.
      destruct (decide (x = y)) as [->|]; tauto.
Qed.

Lemma NoDup_Uniq_from seen l : NoDup (Uniq_from seen l).
Proof.
  revert seen. induction l as [|y l IH]; intros seen; simpl.
  - constructor.
  - destruct (decide (y ∈ seen)); [apply IH|].
    apply NoDup_cons. split; [|apply IH].
    rewrite elem_of_Uniq_from, elem_of_cons. tauto.
Qed.

(** Only the set of seen items matters. *)
Lemma Uniq_from_ext seen seen' l :
  (∀ x, x ∈ seen ↔ x ∈ seen') → Uniq_from seen l = Uniq_from seen' l.
Proof.
  revert seen seen'. induction l as [|y l IH]; intros seen seen' Hs; simpl; [done|].
  destruct (decide (y ∈ seen)) as [Hin|Hnin], (decide (y ∈ seen')) as [Hin'|Hnin'].
  - by apply IH.
  - by apply Hs in Hin.
  - by apply Hs in Hin'.
  - f_equal. apply IH. intros x. rewrite !elem_of_cons, Hs. tauto.
Qed.

Lemma Uniq_from_app seen l1 l2 :
  Uniq_from seen (l1 ++ l2) = Uniq_from seen l1 ++ Uniq_from (l1 ++ seen) l2.
Proof.
  revert seen. induction l1 as [|y l1 IH]; intros seen; simpl; [done|].
  destruct (decide (y ∈ seen)) as [Hin|Hnin]; rewrite IH.
  - f_equal. apply Uniq_from_ext. intros x.
    rewrite elem_of_cons, !elem_of_app. split; [tauto|]. intros [->|?]; tauto.
  - simpl. do 2 f_equal. apply Uniq_from_ext. intros x.
    rewrite elem_of_cons, !elem_of_app, elem_of_cons. tauto.
Qed.

Lemma Uniq_from_seen seen l : (∀ x, x ∈ l → x ∈ seen) → Uniq_from seen l = [].
Proof.
  intros Hall. apply elem_of_nil_inv. intros x.
  rewrite elem_of_Uniq_from. intros [Hl Hs]. by apply Hs, Hall.
Qed.

Lemma Uniq_from_NoDup seen l :
  NoDup l → (∀ x, x ∈ l → x ∉ seen) → Uniq_from seen l = l.
Proof.
  revert seen. induction l as [|y l IH]; intros seen Hnd Hfresh; simpl; [done|].
  apply NoDup_cons in Hnd as [Hy Hnd].
  destruct (decide (y ∈ seen)) as [Hin|_].
  - exfalso. apply (Hfresh y); [left|done].
  - f_equal. apply IH; [done|]. intros x Hx. rewrite elem_of_cons.
    intros [->|Hs]; [done|]. apply (Hfresh x); [by right|done].
Qed.

(** A block of items that comes twice in a row counts once. *)
Lemma Uniq_from_twice seen l1 l2 :
  Uniq_from seen (l1 ++ l1 ++ l2) = Uniq_from seen (l1 ++ l2).
Proof.
  rewrite !Uniq_from_app. f_equal.
  rewrite (Uniq_from_seen (l1 ++ seen) l1); simpl.
  - apply Uniq_from_ext. intros x. rewrite !elem_of_app. tauto.
  - intros x Hx. rewrite elem_of_app. tauto.
Qed.

Lemma Uniq_from_sublist seen l : Uniq_from seen l `sublist_of` l.
Proof.
  revert seen. induction l as [|y l IH]; intros seen; simpl; [done|].
  destruct (decide (y ∈ seen)).
  - by apply sublist_cons.
  - by apply sublist_skip.
Qed.

Lemma elem_of_Uniq l x : x ∈ Uniq l ↔ x ∈ l.
Proof. unfold Uniq. rewrite elem_of_Uniq_from, elem_of_nil. tauto. Qed.

Lemma NoDup_Uniq l : NoDup (Uniq l).
Proof. apply NoDup_Uniq_from. Qed.

Lemma Uniq_NoDup l : NoDup l → Uniq l = l.
Proof. intros Hnd. apply Uniq_from_NoDup; [done|]. intros x _. apply not_elem_of_nil. Qed.

Lemma Uniq_Uniq l : Uniq (Uniq l) = Uniq l.
Proof. apply Uniq_NoDup, NoDup_Uniq. Qed.

(** The pass from left to right: the last item is appended exactly when
    no earlier item equals it. *)
Lemma Uniq_snoc l x :
  Uniq (l ++ [x]) = if decide (x ∈ l) then Uniq l else Uniq l ++ [x].
Proof.
  unfold Uniq. rewrite Uniq_from_app. simpl. rewrite app_nil_r.
  destruct (decide (x ∈ l)); [by rewrite app_nil_r | done].
Qed.

Lemma Uniq_app l1 l2 : Uniq (l1 ++ l2) = Uniq l1 ++ Uniq_from l1 l2.
Proof. unfold Uniq. by rewrite Uniq_from_app, app_nil_r. Qed.

Lemma Uniq_sublist l : Uniq l `sublist_of` l.
Proof. apply Uniq_from_sublist. Qed.

End Uniq.

Lemma length_Uniq `{Countable T} (l : list T) :
  length (Uniq l) = size (list_to_set l : gset T).
Proof.
  rewrite <-(size_list_to_set (C:=gset T) (Uniq l)) by apply NoDup_Uniq.
  f_equal. apply set_eq. intros x. by rewrite !elem_of_list_to_set, elem_of_Uniq.
Qed.

(** *** [geosite.Compile] *)

Lemma bucket_Compile_step (k : ItemType) (rule : DefaultRule.t) (item : Item.t) :
  bucket k (Compile_step rule item) =
  bucket k rule ++ (if decide (Item.Type_ item = k) then [Item.Value item] else []).
Proof.
  destruct rule as [d s kw r], item as [ty v].
  destruct ty, k; simpl; by rewrite ?app_nil_r.
Qed.

Lemma bucket_foldl_Compile_step (k : ItemType) (rule : DefaultRule.t)
    (code : list Item.t) :
  bucket k (foldl Compile_step rule code) =
  bucket k rule ++ (Item.Value <$> filter (λ item, Item.Type_ item = k) code).
Proof.
  revert rule. induction code as [|item code IH]; intros rule; simpl.
  - by rewrite app_nil_r.
  - rewrite IH, bucket_Compile_step, filter_cons.
    destruct (decide (Item.Type_ item = k)); simpl.
    + by rewrite <-app_assoc.
    + by rewrite app_nil_r.
Qed.

(** Each bucket is the values of the items of its kind, in input order. *)
Lemma bucket_Compile (k : ItemType) (code : list Item.t) :
  bucket k (Compile code) = Item.Value <$> filter (λ item, Item.Type_ item = k) code.
Proof. unfold Compile. rewrite bucket_foldl_Compile_step. by destruct k. Qed.

Lemma retag_filter (k : ItemType) (code : list Item.t) :
  Item.mk k <$> (Item.Value <$> filter (λ item, Item.Type_ item = k) code) =
  filter (λ item, Item.Type_ item = k) code.
Proof.
  induction code as [|[ty v] code IH]; [done|].
  rewrite filter_cons. destruct (decide (_ = k)) as [Hk|]; [|done].
  simpl in Hk. subst ty. by rewrite !fmap_cons, IH.
Qed.

Lemma rule_items_Compile (code : list Item.t) :
  rule_items (Compile code) =
  filter (λ item, Item.Type_ item = RuleTypeDomain) code ++
  filter (λ item, Item.Type_ item = RuleTypeDomainSuffix) code ++
  filter (λ item, Item.Type_ item = RuleTypeDomainKeyword) code ++
  filter (λ item, Item.Type_ item = RuleTypeDomainRegex) code.
Proof.
  unfold rule_items.
  change (DefaultRule.Domain (Compile code)) with (bucket RuleTypeDomain (Compile code)).
  change (DefaultRule.DomainSuffix (Compile code))
    with (bucket RuleTypeDomainSuffix (Compile code)).
  change (DefaultRule.DomainKeyword (Compile code))
    with (bucket RuleTypeDomainKeyword (Compile code)).
  change (DefaultRule.DomainRegex (Compile code))
    with (bucket RuleTypeDomainRegex (Compile code)).
  by rewrite !bucket_Compile, !retag_filter.
Qed.

(** The four kinds split any list without loss or repetition. *)
Lemma filter_kinds_Permutation (code : list Item.t) :
  filter (λ item, Item.Type_ item = RuleTypeDomain) code ++
  filter (λ item, Item.Type_ item = RuleTypeDomainSuffix) code ++
  filter (λ item, Item.Type_ item = RuleTypeDomainKeyword) code ++
  filter (λ item, Item.Type_ item = RuleTypeDomainRegex) code ≡ₚ code.
Proof.
  induction code as [|[ty v] code IH]; [done|].
  rewrite !filter_cons. destruct ty; simpl.
  - by rewrite IH.
  - rewrite <-Permutation_middle. by rewrite IH.
  - rewrite app_assoc, <-Permutation_middle, <-app_assoc. by rewrite IH.
  - rewrite !app_assoc, <-Permutation_middle, <-!app_assoc. by rewrite IH.
Qed.

Lemma elem_of_bucket_Compile (k : ItemType) (v : string) (code : list Item.t) :
  v ∈ bucket k (Compile code) ↔ Item.mk k v ∈ code.
Proof.
  rewrite bucket_Compile, list_elem_of_fmap. split.
  - intros ([ty w] & -> & Hin). apply list_elem_of_filter in Hin as [Hk Hin].
    simpl in *. by subst ty.
  - intros Hin. exists (Item.mk k v). split; [done|].
    by apply list_elem_of_filter.
Qed.

(** ** Properties of [parse] *)

Lemma foldl_cons {A B} (f : A → B → A) (a : A) (x : B) (l : list B) :
  foldl f a (x :: l) = foldl f (f a x) l.
Proof. reflexivity. Qed.

(** *** Pseudo-category keys *)

Lemma app_empty_r (s : string) : s +:+ "" = s.
Proof. induction s as [|c s IH]; [done|]. by rewrite app_String, IH. Qed.

(** The key of a pseudo-category determines its attribute. *)
Lemma pseudo_key_inj (code a a' : string) :
  code +:+ "@" +:+ a = code +:+ "@" +:+ a' → a = a'.
Proof. intros Heq. apply (inj (String.app code)) in Heq. by simplify_eq. Qed.

(** A pseudo-category key is never the key of its own base category. *)
Lemma pseudo_key_ne_code (code a : string) : code +:+ "@" +:+ a ≠ code.
Proof.
  intros Heq. rewrite <-(app_empty_r code) in Heq at 2.
  by apply (inj (String.app code)) in Heq.
Qed.

(** *** The type table *)

(** The items one domain entry stands for: what the [switch] appends to
    an empty list. *)
Definition items_of (domain : Domain.t) : list Item.t := append_domain [] domain.

(** The entry [domain] carries the attribute tag [a]. *)
Definition carries (a : string) (domain : Domain.t) : Prop :=
  a ∈ Attribute.Key <$> Domain.Attribute domain.

#[global] Instance carries_dec a domain : Decision (carries a domain).
Proof. unfold carries. apply _. Defined.

(** The attribute tags met in a list of domain entries. *)
Definition tags (l : list Domain.t) : list string :=
  l ≫= λ domain, Attribute.Key <$> Domain.Attribute domain.

(** The type of [domain] is one of the four the [switch] has a case for. *)
Definition known_type (domain : Domain.t) : Prop :=
  Domain.Type_ domain ∈ [Domain_Plain; Domain_Regex; Domain_RootDomain; Domain_Full].

Lemma append_domain_items (domains : list Item.t) (domain : Domain.t) :
  append_domain domains domain = domains ++ items_of domain.
Proof.
  unfold items_of, append_domain.
  repeat case_match; by rewrite ?app_nil_r, <-?app_assoc.
Qed.

(** The two [switch] statements of [parse] are the same table. *)
Lemma append_attribute_domain_eq (attributeDomains : list Item.t) (domain : Domain.t) :
  append_attribute_domain attributeDomains domain =
  append_domain attributeDomains domain.
Proof. reflexivity. Qed.

Lemma foldl_append_domain (domains : list Item.t) (l : list Domain.t) :
  foldl append_domain domains l = domains ++ (l ≫= items_of).
Proof.
  revert domains. induction l as [|d l IH]; intros domains.
  - simpl. by rewrite app_nil_r.
  - by rewrite foldl_cons, IH, append_domain_items, bind_cons, <-app_assoc.
Qed.

Lemma foldl_append_attribute_domain (l : list Domain.t) :
  foldl append_attribute_domain [] l = l ≫= items_of.
Proof.
  change (foldl append_attribute_domain [] l) with (foldl append_domain [] l).
  by rewrite foldl_append_domain.
Qed.

Lemma items_of_unknown (domain : Domain.t) :
  ¬ known_type domain → items_of domain = [].
Proof.
  unfold known_type, items_of, append_domain. intros Hk.
  repeat case_match; try done; exfalso; apply Hk;
    repeat match goal with H : (_ =? _) = true |- _ => apply Z.eqb_eq in H end;
    set_solver.
Qed.

(** *** The side table of attributes *)

(** One copy of [domain] for every attribute of [ats] whose key is [a]:
    what the loop of line 101 appends to [attributes[a]]. *)
Definition copies (a : string) (domain : Domain.t) (ats : list Attribute.t)
    : list Domain.t :=
  (λ _, domain) <$> filter (λ attribute, Attribute.Key attribute = a) ats.

(** What the loops of lines 99-104 append to [attributes[a]] over the
    domain entries [l]. *)
Definition entries (a : string) (l : list Domain.t) : list Domain.t :=
  l ≫= λ domain, copies a domain (Domain.Attribute domain).

Lemma lookup_add_attribute domain attributes attribute (a : string) :
  add_attribute domain attributes attribute !! a =
  if decide (Attribute.Key attribute = a)
  then Some (default [] (attributes !! a) ++ [domain])
  else attributes !! a.
Proof.
  unfold add_attribute. destruct (decide (Attribute.Key attribute = a)) as [<-|Hne].
  - by rewrite lookup_insert_eq.
  - by rewrite lookup_insert_ne.
Qed.

Lemma lookup_foldl_add_attribute domain attributes ats (a : string) :
  foldl (add_attribute domain) attributes ats !! a =
  match copies a domain ats with
  | [] => attributes !! a
  | c => Some (default [] (attributes !! a) ++ c)
  end.
Proof.
  revert attributes. induction ats as [|attribute ats IH]; intros attributes; [done|].
  simpl. rewrite IH, lookup_add_attribute. unfold copies. rewrite filter_cons.
  destruct (decide (Attribute.Key attribute = a)) as [Hk|Hk]; [|done].
  rewrite fmap_cons. simpl.
  destruct ((λ _, domain) <$> filter _ ats); [done|].
  by rewrite <-app_assoc.
Qed.

Lemma domain_step_eq domains attributes domain :
  domain_step (domains, attributes) domain =
  (append_domain domains domain,
   foldl (add_attribute domain) attributes (Domain.Attribute domain)).
Proof. unfold domain_step. by destruct (Domain.Attribute domain). Qed.

Lemma foldl_domain_step_1 domains attributes (l : list Domain.t) :
  (foldl domain_step (domains, attributes) l).1 = domains ++ (l ≫= items_of).
Proof.
  revert domains attributes. induction l as [|d l IH]; intros domains attributes.
  - simpl. by rewrite app_nil_r.
  - rewrite foldl_cons, domain_step_eq, IH, append_domain_items, bind_cons.
    by rewrite <-app_assoc.
Qed.

Lemma foldl_domain_step_2 domains attributes (l : list Domain.t) (a : string) :
  (foldl domain_step (domains, attributes) l).2 !! a =
  match entries a l with
  | [] => attributes !! a
  | c => Some (default [] (attributes !! a) ++ c)
  end.
Proof.
  revert domains attributes. induction l as [|d l IH]; intros domains attributes; [done|].
  rewrite foldl_cons, domain_step_eq, IH, lookup_foldl_add_attribute.
  unfold entries. rewrite bind_cons.
  destruct (copies a d (Domain.Attribute d)) as [|x c]; [done|].
  simpl. destruct (l ≫= _); [by rewrite app_nil_r|].
  by rewrite <-app_assoc.
Qed.

(** [domains] after the loop: the items of every entry, in order. *)
Lemma scan_domains_1 (l : list Domain.t) : (scan_domains l).1 = l ≫= items_of.
Proof. unfold scan_domains. by rewrite foldl_domain_step_1. Qed.

(** [attributes] after the loop: under each tag, the entries that carry
    it, in order, once per occurrence of the tag. *)
Lemma scan_domains_2 (l : list Domain.t) (a : string) :
  (scan_domains l).2 !! a =
  match entries a l with [] => None | c => Some c end.
Proof. unfold scan_domains. by rewrite foldl_domain_step_2, lookup_empty. Qed.

Lemma copies_nil a domain ats :
  copies a domain ats = [] ↔ a ∉ Attribute.Key <$> ats.
Proof.
  unfold copies. split.
  - intros Hnil%fmap_nil_inv (attribute & -> & Hin)%list_elem_of_fmap.
    assert (attribute ∈ filter (λ x, Attribute.Key x = Attribute.Key attribute) ats) as Hf
      by by apply list_elem_of_filter.
    rewrite Hnil in Hf. by apply elem_of_nil in Hf.
  - intros Hnin. rewrite (elem_of_nil_inv (filter _ ats)); [done|].
    intros attribute. rewrite list_elem_of_filter. intros [<- Hin]. apply Hnin.
    by apply list_elem_of_fmap_2.
Qed.

Lemma entries_nil a (l : list Domain.t) : entries a l = [] ↔ a ∉ tags l.
Proof.
  unfold entries, tags. induction l as [|d l IH]; [split; [intros _; apply not_elem_of_nil | done]|].
  rewrite !bind_cons, elem_of_app, app_nil, copies_nil, IH. tauto.
Qed.

Lemma elem_of_tags a (l : list Domain.t) :
  a ∈ tags l ↔ ∃ domain, domain ∈ l ∧ carries a domain.
Proof.
  unfold tags, carries. rewrite list_elem_of_bind.
  split; intros (domain & ? & ?); by exists domain.
Qed.

(** An entry that carries a tag several times is put several times in a
    row under that tag; deduplication makes the repetition invisible. *)
Lemma Uniq_from_copies (f : Domain.t → list Item.t) (domain : Domain.t)
    {X} (xs : list X) (seen rest : list Item.t) :
  Uniq_from seen (f domain ++ (((λ _, domain) <$> xs) ≫= f) ++ rest) =
  Uniq_from seen (f domain ++ rest).
Proof.
  induction xs as [|x xs IH]; [done|].
  rewrite fmap_cons, bind_cons, <-app_assoc, Uniq_from_twice. apply IH.
Qed.

Lemma Uniq_from_entries (a : string) (l : list Domain.t) (seen : list Item.t) :
  Uniq_from seen (entries a l ≫= items_of) =
  Uniq_from seen (filter (carries a) l ≫= items_of).
Proof.
  revert seen. induction l as [|d l IH]; intros seen; [done|].
  unfold entries. rewrite bind_cons, bind_app, filter_cons.
  fold (entries a l).
  destruct (decide (carries a d)) as [Hc|Hc].
  - unfold copies.
    destruct (filter _ (Domain.Attribute d)) as [|x xs] eqn:Hf.
    { exfalso. apply (proj1 (copies_nil a d (Domain.Attribute d))); [|done].
      unfold copies. by rewrite Hf. }
    rewrite fmap_cons, !bind_cons, <-app_assoc, Uniq_from_copies.
    by rewrite !Uniq_from_app, IH.
  - rewrite (proj2 (copies_nil a d (Domain.Attribute d)) Hc). apply IH.
Qed.

(** The list written under a tag is the deduplicated items of exactly the
    entries that carry the tag. *)
Lemma Uniq_entries (a : string) (l : list Domain.t) :
  Uniq (foldl append_attribute_domain [] (entries a l)) =
  Uniq (filter (carries a) l ≫= items_of).
Proof. rewrite foldl_append_attribute_domain. apply Uniq_from_entries. Qed.

(** *** Writing the pseudo-categories *)

Lemma write_attributes_cons code kv order domainMap :
  write_attributes code (kv :: order) domainMap =
  write_attributes code order (attribute_step code domainMap kv).
Proof. reflexivity. Qed.

Lemma write_attributes_other code order domainMap (k : string) :
  (∀ a, a ∈ order.*1 → k ≠ code +:+ "@" +:+ a) →
  write_attributes code order domainMap !! k = domainMap !! k.
Proof.
  revert domainMap.
  induction order as [|[a es] order IH]; intros domainMap Hk; [done|].
  rewrite write_attributes_cons, IH.
  - simpl. apply lookup_insert_ne. intros Heq. apply (Hk a); [left|done].
  - intros a' Ha'. apply Hk. by right.
Qed.

Lemma write_attributes_lookup code order domainMap (a : string) es :
  NoDup order.*1 → (a, es) ∈ order →
  write_attributes code order domainMap !! (code +:+ "@" +:+ a) =
  Some (Uniq (foldl append_attribute_domain [] es)).
Proof.
  revert domainMap.
  induction order as [|[a' es'] order IH]; intros domainMap Hnd Hin.
  { by apply elem_of_nil in Hin. }
  rewrite fmap_cons in Hnd. apply NoDup_cons in Hnd as [Hfresh Hnd].
  rewrite write_attributes_cons. apply elem_of_cons in Hin as [Heq|Hin].
  - simplify_eq. rewrite write_attributes_other.
    + simpl. apply lookup_insert_eq.
    + intros a Ha Heq. apply pseudo_key_inj in Heq. by subst.
  - by apply IH.
Qed.

(** The order in which Go ranges over [attributes] does not show in the
    category map. *)
Lemma write_attributes_perm code order order' domainMap :
  NoDup order.*1 → order ≡ₚ order' →
  write_attributes code order domainMap = write_attributes code order' domainMap.
Proof.
  intros Hnd Hperm. apply map_eq. intros k.
  assert (NoDup order'.*1) as Hnd' by by rewrite <-Hperm.
  destruct (decide (k ∈ (λ kv, code +:+ "@" +:+ kv.1) <$> order)) as [Hin|Hnin].
  - apply list_elem_of_fmap in Hin as ([a es] & -> & Hin). simpl.
    rewrite !(write_attributes_lookup _ _ _ a es); try done.
    by rewrite <-Hperm.
  - rewrite !write_attributes_other; [done| |].
    + intros a (kv & -> & Hkv)%list_elem_of_fmap ->. apply Hnin.
      apply list_elem_of_fmap. exists kv. split; [done|]. by rewrite Hperm.
    + intros a (kv & -> & Hkv)%list_elem_of_fmap ->. apply Hnin.
      apply list_elem_of_fmap. by exists kv.
Qed.

Section Parse.
Context `{Runtime}.

(** The keys [parse_entry] assigns for a record: its lowercased code, and
    one pseudo-category per attribute tag met in the record. *)
Definition entry_keys (vGeositeEntry : GeoSite.t) : list string :=
  let code := ToLower (GeoSite.CountryCode vGeositeEntry) in
  code :: ((λ a, code +:+ "@" +:+ a) <$> tags (GeoSite.Domain vGeositeEntry)).

(** The base list of a record: the deduplicated items of all its entries. *)
Lemma parse_entry_base domainMap (vGeositeEntry : GeoSite.t) :
  parse_entry domainMap vGeositeEntry !! ToLower (GeoSite.CountryCode vGeositeEntry) =
  Some (Uniq (GeoSite.Domain vGeositeEntry ≫= items_of)).
Proof.
  unfold parse_entry.
  destruct (scan_domains (GeoSite.Domain vGeositeEntry)) as [domains attributes] eqn:Hscan.
  rewrite write_attributes_other.
  - rewrite lookup_insert_eq. f_equal. f_equal.
    by rewrite <-scan_domains_1, Hscan.
  - intros a _ Heq. symmetry in Heq. by apply pseudo_key_ne_code in Heq.
Qed.

(** The list of a pseudo-category: the deduplicated items of the entries
    that carry its tag. *)
Lemma parse_entry_tag domainMap (vGeositeEntry : GeoSite.t) (a : string) :
  a ∈ tags (GeoSite.Domain vGeositeEntry) →
  parse_entry domainMap vGeositeEntry
    !! (ToLower (GeoSite.CountryCode vGeositeEntry) +:+ "@" +:+ a) =
  Some (Uniq (filter (carries a) (GeoSite.Domain vGeositeEntry) ≫= items_of)).
Proof.
  intros Ha. unfold parse_entry.
  destruct (scan_domains (GeoSite.Domain vGeositeEntry)) as [domains attributes] eqn:Hscan.
  pose proof (scan_domains_2 (GeoSite.Domain vGeositeEntry) a) as Hlook.
  rewrite Hscan in Hlook. simpl in Hlook.
  destruct (entries a (GeoSite.Domain vGeositeEntry)) as [|d c] eqn:Hent.
  { by apply entries_nil in Hent. }
  rewrite (write_attributes_lookup _ _ _ a (d :: c)).
  - by rewrite <-Hent, Uniq_entries.
  - apply NoDup_fst_map_to_list.
  - by apply elem_of_map_to_list.
Qed.

(** Every other key keeps what it had. *)
Lemma parse_entry_other domainMap (vGeositeEntry : GeoSite.t) (k : string) :
  k ∉ entry_keys vGeositeEntry →
  parse_entry domainMap vGeositeEntry !! k = domainMap !! k.
Proof.
  unfold entry_keys. rewrite not_elem_of_cons. intros [Hbase Htags].
  unfold parse_entry.
  destruct (scan_domains (GeoSite.Domain vGeositeEntry)) as [domains attributes] eqn:Hscan.
  rewrite write_attributes_other.
  - by apply lookup_insert_ne.
  - intros a Ha ->. apply Htags.
    apply (list_elem_of_fmap_2
             (λ a, ToLower (GeoSite.CountryCode vGeositeEntry) +:+ "@" +:+ a)).
    apply list_elem_of_fmap in Ha as ([a' es] & -> & Hin).
    apply elem_of_map_to_list in Hin. simpl.
    pose proof (scan_domains_2 (GeoSite.Domain vGeositeEntry) a') as Hlook.
    rewrite Hscan in Hlook. simpl in Hlook. rewrite Hin in Hlook.
    destruct (decide (a' ∈ tags (GeoSite.Domain vGeositeEntry))) as [|Hnin]; [done|].
    apply entries_nil in Hnin. by rewrite Hnin in Hlook.
Qed.

Lemma parse_entry_is_Some domainMap (vGeositeEntry : GeoSite.t) (k : string) :
  k ∈ entry_keys vGeositeEntry → is_Some (parse_entry domainMap vGeositeEntry !! k).
Proof.
  unfold entry_keys. rewrite elem_of_cons.
  intros [->|(a & -> & Ha)%list_elem_of_fmap].
  - by rewrite parse_entry_base.
  - by rewrite parse_entry_tag.
Qed.

(** What a key written by a record is set to does not depend on the map
    the record is added to. *)
Lemma parse_entry_written domainMap domainMap' (vGeositeEntry : GeoSite.t) (k : string) :
  k ∈ entry_keys vGeositeEntry →
  parse_entry domainMap vGeositeEntry !! k = parse_entry domainMap' vGeositeEntry !! k.
Proof.
  unfold entry_keys. rewrite elem_of_cons.
  intros [->|(a & -> & Ha)%list_elem_of_fmap].
  - by rewrite !parse_entry_base.
  - by rewrite !parse_entry_tag.
Qed.

(** *** The loop over the records *)

Lemma foldl_parse_entry_other domainMap (l : list GeoSite.t) (k : string) :
  (∀ e, e ∈ l → k ∉ entry_keys e) →
  foldl parse_entry domainMap l !! k = domainMap !! k.
Proof.
  revert domainMap. induction l as [|e l IH]; intros domainMap Hk; [done|].
  rewrite foldl_cons, IH.
  - apply parse_entry_other, Hk. by left.
  - intros e' He'. apply Hk. by right.
Qed.

(** The last record that writes a key decides its entry. *)
Lemma parse_entries_last_writer (pre post : list GeoSite.t) (e : GeoSite.t)
    (k : string) domainMap :
  k ∈ entry_keys e → (∀ e', e' ∈ post → k ∉ entry_keys e') →
  parse_entries (pre ++ e :: post) !! k = parse_entry domainMap e !! k.
Proof.
  intros Hk Hpost. unfold parse_entries.
  rewrite foldl_app, foldl_cons, foldl_parse_entry_other by done.
  by apply parse_entry_written.
Qed.

Lemma foldl_parse_entry_is_Some domainMap (l : list GeoSite.t) (k : string) :
  is_Some (foldl parse_entry domainMap l !! k) ↔
  is_Some (domainMap !! k) ∨ ∃ e, e ∈ l ∧ k ∈ entry_keys e.
Proof.
  revert domainMap. induction l as [|e l IH]; intros domainMap.
  - simpl. split; [by left|]. intros [?|(e & He & _)]; [done|].
    by apply elem_of_nil in He.
  - rewrite foldl_cons, IH. split.
    + intros [Hsome|(e' & He' & Hk)].
      * destruct (decide (k ∈ entry_keys e)) as [Hin|Hnin].
        -- right. exists e. split; [left|done].
        -- left. by rewrite parse_entry_other in Hsome.
      * right. exists e'. split; [by right|done].
    + intros [Hsome|(e' & He' & Hk)].
      * left. destruct (decide (k ∈ entry_keys e)) as [Hin|Hnin].
        -- by apply parse_entry_is_Some.
        -- by rewrite parse_entry_other.
      * apply elem_of_cons in He' as [->|He'].
        -- left. by apply parse_entry_is_Some.
        -- right. by exists e'.
Qed.

(** The keys of the category map are the keys its records write. *)
Lemma parse_entries_is_Some (entries : list GeoSite.t) (k : string) :
  is_Some (parse_entries entries !! k) ↔ ∃ e, e ∈ entries ∧ k ∈ entry_keys e.
Proof.
  unfold parse_entries. rewrite foldl_parse_entry_is_Some, lookup_empty.
  split; [|by right]. intros [Hnone|?]; [|done]. by destruct Hnone.
Qed.

End Parse.

(** ** A runtime to run the pipeline on concrete feeds *)

(** The decoder yields [feed] for every blob, NO_SKIP is [no_skip], the
    release of [source] is named [sourceName] and any other release
    [destinationName], paths are kept as they are, and no call fails. *)
Definition feed_runtime (feed : list GeoSite.t) (no_skip : string)
    (source sourceName destinationName : string) : Runtime := {|
  ToLower := ToLowerASCII;
  Unmarshal := λ _, Ok feed;
  Getenv := λ name, if String.eqb name "NO_SKIP" then no_skip else "";
  fetch := λ from,
    Ok (RepositoryRelease.mk
          (Some (if String.eqb from source then sourceName else destinationName)));
  download := λ _, Ok [];
  Abs := λ path, path;
  Join := λ dir name, dir +:+ "/" +:+ name;
  io_error := λ _, None
|}.

(** ** The claims of the specification *)

(** C1. A domain entry of type RootDomain whose value contains a '.' makes
    the decoder emit exactly two items, a Domain item with the raw value and
    then a DomainSuffix item with "." followed by the raw value; when the
    value contains no '.', exactly one item, the DomainSuffix item, and no
    Domain item.  Both switches of [parse] (base list and pseudo-category
    lists) do so. *)
Theorem root_domain_decoding (domains : list Item.t) (domain : Domain.t) :
  Domain.Type_ domain = Domain_RootDomain →
  ((∃ pre post, Domain.Value domain = pre +:+ "." +:+ post) →
     append_domain domains domain =
       domains ++ [Item.mk RuleTypeDomain (Domain.Value domain);
                   Item.mk RuleTypeDomainSuffix ("." +:+ Domain.Value domain)] ∧
     append_attribute_domain domains domain =
       domains ++ [Item.mk RuleTypeDomain (Domain.Value domain);
                   Item.mk RuleTypeDomainSuffix ("." +:+ Domain.Value domain)]) ∧
  ((¬ ∃ pre post, Domain.Value domain = pre +:+ "." +:+ post) →
     append_domain domains domain =
       domains ++ [Item.mk RuleTypeDomainSuffix ("." +:+ Domain.Value domain)] ∧
     append_attribute_domain domains domain =
       domains ++ [Item.mk RuleTypeDomainSuffix ("." +:+ Domain.Value domain)]).
Proof.
  intros Hty. unfold append_attribute_domain, append_domain.
  rewrite Hty. simpl. split.
  - intros Hdot%Contains_spec. rewrite Hdot. by rewrite <-app_assoc.
  - intros Hdot%Contains_false. by rewrite Hdot.
Qed.

Lemma root_domain_decoding_witness :
  append_domain [] (Domain.mk Domain_RootDomain "foo.com" []) =
    [Item.mk RuleTypeDomain "foo.com"; Item.mk RuleTypeDomainSuffix ".foo.com"] ∧
  append_domain [] (Domain.mk Domain_RootDomain "bar" []) =
    [Item.mk RuleTypeDomainSuffix ".bar"].
Proof.
  split.
  - apply (root_domain_decoding [] (Domain.mk Domain_RootDomain "foo.com" []) eq_refl).
    by exists "foo", "com".
  - apply (root_domain_decoding [] (Domain.mk Domain_RootDomain "bar" []) eq_refl).
    apply Contains_false. reflexivity.
Defined.

(** C3. Deduplication of a Rule Item list leaves an already-unique list
    unchanged and is idempotent; on any list it returns the distinct items
    (no item twice, the same items as the input), as many as the input has
    distinct items, in the order of the input, each at its first
    occurrence: scanning from the left, an item is kept exactly when no
    earlier item equals it. *)
Theorem Uniq_first_occurrences (l : list Item.t) :
  (NoDup l → Uniq l = l) ∧
  Uniq (Uniq l) = Uniq l ∧
  NoDup (Uniq l) ∧
  (∀ item, item ∈ Uniq l ↔ item ∈ l) ∧
  length (Uniq l) = size (list_to_set l : gset Item.t) ∧
  Uniq l `sublist_of` l ∧
  (∀ item, Uniq (l ++ [item]) = if decide (item ∈ l) then Uniq l else Uniq l ++ [item]).
Proof.
  split; [apply Uniq_NoDup|].
  split; [apply Uniq_Uniq|].
  split; [apply NoDup_Uniq|].
  split; [intros item; apply elem_of_Uniq|].
  split; [apply length_Uniq|].
  split; [apply Uniq_sublist|].
  apply Uniq_snoc.
Qed.

(** C5. Compilation splits an item list into the four buckets without
    loss: the bucket of a kind is the values of the items of that kind in
    input order; the buckets, each value tagged with its bucket's kind, are
    a rearrangement of the input (every item once, in the bucket of its
    kind), so they hold the same items as the input, and a duplicate-free
    input gives duplicate-free buckets. *)
Theorem Compile_partition (code : list Item.t) :
  (∀ k, bucket k (Compile code) =
        Item.Value <$> filter (λ item, Item.Type_ item = k) code) ∧
  rule_items (Compile code) ≡ₚ code ∧
  (∀ item, item ∈ rule_items (Compile code) ↔ item ∈ code) ∧
  (∀ k v, v ∈ bucket k (Compile code) ↔ Item.mk k v ∈ code) ∧
  (NoDup code → NoDup (rule_items (Compile code))) ∧
  (length (DefaultRule.Domain (Compile code)) +
   length (DefaultRule.DomainSuffix (Compile code)) +
   length (DefaultRule.DomainKeyword (Compile code)) +
   length (DefaultRule.DomainRegex (Compile code)) = length code)%nat.
Proof.
  assert (rule_items (Compile code) ≡ₚ code) as Hperm.
  { rewrite rule_items_Compile. apply filter_kinds_Permutation. }
  split; [intros k; apply bucket_Compile|].
  split; [done|].
  split; [intros item; by rewrite Hperm|].
  split; [intros k v; apply elem_of_bucket_Compile|].
  split; [intros Hnd; by rewrite Hperm|].
  rewrite <-(Permutation_length Hperm). unfold rule_items.
  rewrite !length_app, !length_fmap. lia.
Qed.

(** C6, as the specification states it, fails: the subset map holds every
    requested key, also one the full map lacks.  With only "cn" in the full
    map the subset map has three keys, not the one of the intersection. *)
Lemma cnDomainMap_keys_not_intersection :
  dom (cnDomainMap {["cn" := [Item.mk RuleTypeDomain "a.cn"]]}) ≠
  (list_to_set cnCodes : gset string) ∩
  dom ({["cn" := [Item.mk RuleTypeDomain "a.cn"]]} : gmap string (list Item.t)).
Proof.
  intros Heq.
  assert ("geolocation-!cn" ∈ dom (cnDomainMap {["cn" := [Item.mk RuleTypeDomain "a.cn"]]}))
    as Hin by (apply elem_of_dom; by eexists).
  rewrite Heq, dom_singleton_L in Hin. set_solver.
Qed.

(** C6, amended. The subset map has exactly the three requested keys,
    whatever the full map holds; a requested key is mapped to the list the
    full map has for it, and to the empty list when the full map lacks it. *)
Theorem cnDomainMap_projection (domainMap : gmap string (list Item.t)) :
  dom (cnDomainMap domainMap) = list_to_set cnCodes ∧
  (∀ k, k ∈ cnCodes → cnDomainMap domainMap !! k = Some (default [] (domainMap !! k))) ∧
  (∀ k, k ∉ cnCodes → cnDomainMap domainMap !! k = None).
Proof.
  unfold cnDomainMap, cnCodes. simpl. split; [|split].
  - rewrite !dom_insert_L, dom_empty_L. set_solver.
  - intros k Hk. rewrite !elem_of_cons, elem_of_nil in Hk.
    destruct Hk as [->|[->|[->|[]]]]; by simplify_map_eq.
  - intros k Hk. rewrite !not_elem_of_cons in Hk. destruct Hk as (?&?&?&_).
    by simplify_map_eq.
Qed.

(** *** What [strings.ToLower] is known to do *)

(** The byte [c] is an ASCII capital letter, 'A'..'Z'. *)
Definition upper_byte (c : ascii) : Prop := (65 ≤ N_of_ascii c ≤ 90)%N.

(** No byte of [s] is an ASCII capital letter. *)
Definition no_upper (s : string) : Prop :=
  Forall (λ c, ¬ upper_byte c) (String.list_ascii_of_string s).

(** [s] is ASCII text: every byte is below [utf8.RuneSelf]. *)
Definition is_ASCII (s : string) : Prop :=
  Forall (λ c, (N_of_ascii c < 128)%N) (String.list_ascii_of_string s).

(** What Go's [strings.ToLower] does, as far as bytes tell.  On ASCII text
    it is the byte-wise lowering of 'A'..'Z' (its ASCII path).  On any
    text its result has no byte in 'A'..'Z': an ASCII capital is mapped to
    its small letter, no rune is mapped to an ASCII capital, and the bytes
    of a rune that is not ASCII are 128 and above. *)
Record LowerCase (lower : string → string) : Prop := {
  LowerCase_no_upper : ∀ s, no_upper (lower s);
  LowerCase_ASCII : ∀ s, is_ASCII s → lower s = ToLowerASCII s
}.

Lemma lower_byte_not_upper (c : ascii) : ¬ upper_byte (lower_byte c).
Proof.
  unfold upper_byte, lower_byte.
  destruct ((65 <=? N_of_ascii c)%N && (N_of_ascii c <=? 90)%N) eqn:Hup.
  - apply andb_true_iff in Hup as [Hlo%N.leb_le Hhi%N.leb_le].
    rewrite N_ascii_embedding by lia. lia.
  - apply andb_false_iff in Hup as [Hlo%N.leb_gt | Hhi%N.leb_gt]; lia.
Qed.

(** [ToLowerASCII] leaves no byte in 'A'..'Z'. *)
Lemma ToLowerASCII_no_upper (s : string) : no_upper (ToLowerASCII s).
Proof.
  unfold no_upper.
  induction s as [|c s IH]; simpl; constructor; [apply lower_byte_not_upper | done].
Qed.

Lemma ToLowerASCII_lowercases : LowerCase ToLowerASCII.
Proof. split; [apply ToLowerASCII_no_upper | done]. Qed.

(** A text with an ASCII capital is not its own lowercase form. *)
Lemma LowerCase_changes (lower : string → string) (s : string) :
  LowerCase lower → ¬ no_upper s → lower s ≠ s.
Proof. intros Hlower Hupper Heq. apply Hupper. rewrite <-Heq. by apply Hlower. Qed.

Section Claims.
Context `{Runtime}.

(** C2. For every upstream record, whatever the map it is added to: the
    base category holds the deduplicated items of all its entries, tagged
    or not; the pseudo-category of each attribute tag holds the
    deduplicated items, through the same type table, of exactly the
    entries that carry the tag.  So an item of a tagged entry is in the
    base list and in the list of each of its tags, and every item of a
    pseudo-category comes from an entry that carries its tag.  In the map
    built from a whole feed these are the entries of the record's keys,
    as long as no later record writes the same key. *)
Theorem attribute_fan_out (domainMap : gmap string (list Item.t))
    (vGeositeEntry : GeoSite.t) :
  parse_entry domainMap vGeositeEntry !! ToLower (GeoSite.CountryCode vGeositeEntry) =
    Some (Uniq (GeoSite.Domain vGeositeEntry ≫= items_of)) ∧
  (∀ a, a ∈ tags (GeoSite.Domain vGeositeEntry) →
     parse_entry domainMap vGeositeEntry
       !! (ToLower (GeoSite.CountryCode vGeositeEntry) +:+ "@" +:+ a) =
     Some (Uniq (filter (carries a) (GeoSite.Domain vGeositeEntry) ≫= items_of))) ∧
  (∀ domain a item,
     domain ∈ GeoSite.Domain vGeositeEntry → carries a domain → item ∈ items_of domain →
     ∃ base pseudo,
       parse_entry domainMap vGeositeEntry
         !! ToLower (GeoSite.CountryCode vGeositeEntry) = Some base ∧
       item ∈ base ∧
       parse_entry domainMap vGeositeEntry
         !! (ToLower (GeoSite.CountryCode vGeositeEntry) +:+ "@" +:+ a) = Some pseudo ∧
       item ∈ pseudo) ∧
  (∀ a pseudo item,
     a ∈ tags (GeoSite.Domain vGeositeEntry) →
     parse_entry domainMap vGeositeEntry
       !! (ToLower (GeoSite.CountryCode vGeositeEntry) +:+ "@" +:+ a) = Some pseudo →
     item ∈ pseudo →
     ∃ domain, domain ∈ GeoSite.Domain vGeositeEntry ∧ carries a domain ∧
               item ∈ items_of domain) ∧
  (∀ pre post k,
     k ∈ entry_keys vGeositeEntry → (∀ e, e ∈ post → k ∉ entry_keys e) →
     parse_entries (pre ++ vGeositeEntry :: post) !! k =
     parse_entry domainMap vGeositeEntry !! k).
Proof.
  split; [apply parse_entry_base|].
  split; [intros a Ha; by apply parse_entry_tag|].
  split; [|split; [|intros pre post k; apply parse_entries_last_writer]].
  - intros domain a item Hd Hc Hitem.
    assert (a ∈ tags (GeoSite.Domain vGeositeEntry)) as Ha.
    { apply elem_of_tags. by exists domain. }
    eexists _, _. split; [apply parse_entry_base|].
    split; [|split; [by apply parse_entry_tag|]].
    + apply elem_of_Uniq, list_elem_of_bind. by exists domain.
    + apply elem_of_Uniq, list_elem_of_bind. exists domain.
      split; [done|]. by apply list_elem_of_filter.
  - intros a pseudo item Ha Hlook Hitem.
    rewrite parse_entry_tag in Hlook by done. simplify_eq.
    apply elem_of_Uniq, list_elem_of_bind in Hitem as (domain & Hitem & Hin).
    apply list_elem_of_filter in Hin as [Hc Hin]. by exists domain.
Qed.

Lemma bind_items_drop (P : Domain.t → Prop) `{∀ d, Decision (P d)}
    (domain : Domain.t) (l1 l2 : list Domain.t) :
  items_of domain = [] →
  filter P (l1 ++ domain :: l2) ≫= items_of = filter P (l1 ++ l2) ≫= items_of.
Proof.
  intros Hnil. rewrite !filter_app, !bind_app, filter_cons.
  destruct (decide (P domain)); [|done]. by rewrite bind_cons, Hnil.
Qed.

Lemma tags_drop (domain : Domain.t) (l1 l2 : list Domain.t) (a : string) :
  a ∈ tags (l1 ++ l2) → a ∈ tags (l1 ++ domain :: l2).
Proof.
  unfold tags. rewrite !bind_app, bind_cons, !elem_of_app. tauto.
Qed.

(** C7. A domain entry whose type is none of Plain, Regex, RootDomain and
    Full makes neither switch emit an item.  The record it belongs to is
    decoded as if the entry were not there: the base list is the same, and
    so is the list of every attribute tag the other entries carry.  The
    decoding does not fail: [parse] returns the category map whenever the
    blob decodes into records. *)
Theorem unrecognized_type_dropped (domain : Domain.t) :
  ¬ known_type domain →
  (∀ domains, append_domain domains domain = domains) ∧
  (∀ attributeDomains,
     append_attribute_domain attributeDomains domain = attributeDomains) ∧
  (∀ domainMap code l1 l2,
     parse_entry domainMap (GeoSite.mk code (l1 ++ domain :: l2)) !! ToLower code =
     parse_entry domainMap (GeoSite.mk code (l1 ++ l2)) !! ToLower code ∧
     ∀ a, a ∈ tags (l1 ++ l2) →
       parse_entry domainMap (GeoSite.mk code (l1 ++ domain :: l2))
         !! (ToLower code +:+ "@" +:+ a) =
       parse_entry domainMap (GeoSite.mk code (l1 ++ l2))
         !! (ToLower code +:+ "@" +:+ a)) ∧
  (∀ vGeositeData pre code l1 l2 post,
     Unmarshal vGeositeData = Ok (pre ++ GeoSite.mk code (l1 ++ domain :: l2) :: post) →
     parse vGeositeData =
     Ok (parse_entries (pre ++ GeoSite.mk code (l1 ++ domain :: l2) :: post))).
Proof.
  intros Hunknown. pose proof (items_of_unknown domain Hunknown) as Hnil.
  assert (∀ domains, append_domain domains domain = domains) as Hdrop.
  { intros domains. by rewrite append_domain_items, Hnil, app_nil_r. }
  split; [done|]. split; [done|]. split.
  - intros domainMap code l1 l2.
    assert ((l1 ++ domain :: l2) ≫= items_of = (l1 ++ l2) ≫= items_of) as Hall
      by by rewrite !bind_app, bind_cons, Hnil.
    split.
    + rewrite (parse_entry_base domainMap (GeoSite.mk code (l1 ++ domain :: l2))).
      rewrite (parse_entry_base domainMap (GeoSite.mk code (l1 ++ l2))).
      simpl. by rewrite Hall.
    + intros a Ha.
      rewrite (parse_entry_tag domainMap (GeoSite.mk code (l1 ++ domain :: l2)))
        by by apply tags_drop.
      rewrite (parse_entry_tag domainMap (GeoSite.mk code (l1 ++ l2))) by done.
      simpl. by rewrite (bind_items_drop _ domain l1 l2 Hnil).
  - intros vGeositeData pre code l1 l2 post Hdec. unfold parse. by rewrite Hdec.
Qed.

(** C8. With [strings.ToLower] doing what Go's does ([LowerCase]), the keys
    of the category map built from a blob are exactly: the country code of
    a record in lowercase, and that lowercased code, then "@", then the key
    of an attribute of one of the record's entries, as it stands in the
    record.  The lowercased code has no capital 'A'..'Z' left, for an ASCII
    code it is the byte-wise lowering of the code, and a code with a
    capital is never a key part as it stands: upstream case is not kept. *)
Theorem category_map_keys (vGeositeData : list byte)
    (domainMap : gmap string (list Item.t)) :
  LowerCase ToLower →
  parse vGeositeData = Ok domainMap →
  ∀ k, k ∈ dom domainMap ↔
    ∃ entries vGeositeEntry,
      Unmarshal vGeositeData = Ok entries ∧ vGeositeEntry ∈ entries ∧
      no_upper (ToLower (GeoSite.CountryCode vGeositeEntry)) ∧
      (is_ASCII (GeoSite.CountryCode vGeositeEntry) →
         ToLower (GeoSite.CountryCode vGeositeEntry) =
         ToLowerASCII (GeoSite.CountryCode vGeositeEntry)) ∧
      (¬ no_upper (GeoSite.CountryCode vGeositeEntry) →
         ToLower (GeoSite.CountryCode vGeositeEntry) ≠
         GeoSite.CountryCode vGeositeEntry) ∧
      (k = ToLower (GeoSite.CountryCode vGeositeEntry) ∨
       ∃ domain attribute,
         domain ∈ GeoSite.Domain vGeositeEntry ∧
         attribute ∈ Domain.Attribute domain ∧
         k = ToLower (GeoSite.CountryCode vGeositeEntry) +:+ "@" +:+
             Attribute.Key attribute).
Proof.
  unfold parse. intros Hlower Hparse k.
  destruct (Unmarshal vGeositeData) as [entries| |]; simplify_eq.
  rewrite elem_of_dom, parse_entries_is_Some. split.
  - intros (e & He & Hk). exists entries, e. split; [done|]. split; [done|].
    split; [by apply Hlower|]. split; [by apply Hlower|].
    split; [by apply LowerCase_changes|].
    unfold entry_keys in Hk. apply elem_of_cons in Hk as [->|Hk]; [by left|].
    right. apply list_elem_of_fmap in Hk as (a & -> & Ha).
    apply elem_of_tags in Ha as (domain & Hd & Hc).
    apply list_elem_of_fmap in Hc as (attribute & -> & Hat).
    by exists domain, attribute.
  - intros (entries' & e & Heq & He & _ & _ & _ & Hk). simplify_eq.
    exists e. split; [done|]. unfold entry_keys.
    destruct Hk as [->|(domain & attribute & Hd & Hat & ->)]; [by left|].
    right. apply (list_elem_of_fmap_2
      (λ a, ToLower (GeoSite.CountryCode e) +:+ "@" +:+ a)).
    apply elem_of_tags. exists domain. split; [done|].
    by apply list_elem_of_fmap_2.
Qed.

(** C10, amended. When two records of a feed have country codes with the
    same lowercase form, what the map holds under a key the later record
    writes (its lowercased code, and the pseudo-category key of each of its
    attribute tags) is what the later record alone gives, with nothing of
    the earlier record merged in; this for every such key that no record
    after the later one writes again.  The pseudo-category of a tag that
    the earlier record carries and no record after it writes again is not
    reassigned: it keeps the list of the earlier record. *)
Theorem later_record_overwrites (pre mid post : list GeoSite.t)
    (earlier later : GeoSite.t) :
  ToLower (GeoSite.CountryCode earlier) = ToLower (GeoSite.CountryCode later) →
  (∀ k, k ∈ entry_keys later → (∀ e, e ∈ post → k ∉ entry_keys e) →
     parse_entries (pre ++ earlier :: mid ++ later :: post) !! k =
     parse_entries [later] !! k) ∧
  ((∀ e, e ∈ post → ToLower (GeoSite.CountryCode later) ∉ entry_keys e) →
     parse_entries (pre ++ earlier :: mid ++ later :: post)
       !! ToLower (GeoSite.CountryCode earlier) =
     Some (Uniq (GeoSite.Domain later ≫= items_of))) ∧
  (∀ a, a ∈ tags (GeoSite.Domain later) →
     (∀ e, e ∈ post →
        ToLower (GeoSite.CountryCode later) +:+ "@" +:+ a ∉ entry_keys e) →
     parse_entries (pre ++ earlier :: mid ++ later :: post)
       !! (ToLower (GeoSite.CountryCode earlier) +:+ "@" +:+ a) =
     Some (Uniq (filter (carries a) (GeoSite.Domain later) ≫= items_of))) ∧
  (∀ a, a ∈ tags (GeoSite.Domain earlier) →
     (∀ e, e ∈ mid ++ later :: post →
        ToLower (GeoSite.CountryCode earlier) +:+ "@" +:+ a ∉ entry_keys e) →
     parse_entries (pre ++ earlier :: mid ++ later :: post)
       !! (ToLower (GeoSite.CountryCode earlier) +:+ "@" +:+ a) =
     Some (Uniq (filter (carries a) (GeoSite.Domain earlier) ≫= items_of))).
Proof.
  intros Hcode.
  assert (∀ k, k ∈ entry_keys later → (∀ e, e ∈ post → k ∉ entry_keys e) →
     parse_entries (pre ++ earlier :: mid ++ later :: post) !! k =
     parse_entry ∅ later !! k) as Hlast.
  { intros k Hk Hpost.
    replace (pre ++ earlier :: mid ++ later :: post)
      with ((pre ++ earlier :: mid) ++ later :: post)
      by by rewrite <-app_assoc.
    by apply parse_entries_last_writer. }
  split; [done|]. split; [|split].
  - rewrite Hcode. intros Hpost.
    rewrite Hlast; [apply parse_entry_base|by left|done].
  - rewrite Hcode. intros a Ha Hpost.
    rewrite Hlast; [by apply parse_entry_tag| |done].
    right. by apply (list_elem_of_fmap_2
      (λ a, ToLower (GeoSite.CountryCode later) +:+ "@" +:+ a)).
  - intros a Ha Hrest.
    rewrite (parse_entries_last_writer pre (mid ++ later :: post) earlier _ ∅).
    + by apply parse_entry_tag.
    + right. by apply (list_elem_of_fmap_2
        (λ a, ToLower (GeoSite.CountryCode earlier) +:+ "@" +:+ a)).
    + done.
Qed.

(** The record of the specification's end-to-end scenario. *)
Definition scenario : GeoSite.t :=
  GeoSite.mk "test"
    [Domain.mk Domain_Full "example.com" [];
     Domain.mk Domain_RootDomain "foo.com" [];
     Domain.mk Domain_RootDomain "bar" [];
     Domain.mk Domain_Plain "ads" []].

(** C4. For the single record with code "test" and the entries
    Full "example.com", RootDomain "foo.com", RootDomain "bar" and
    Plain "ads", the category "test" of the built map compiles to the
    buckets domain ["example.com"; "foo.com"], domain_suffix
    [".foo.com"; ".bar"], domain_keyword ["ads"] and an empty domain_regex,
    and these are the four lists of the rule set [generate] writes for it;
    [ToLower] keeps "test", which is lowercase already. *)
Theorem scenario_compiles :
  ToLower "test" = "test" →
  Compile <$> parse_entries [scenario] !! "test" =
    Some (DefaultRule.mk ["example.com"; "foo.com"] [".foo.com"; ".bar"] ["ads"] []) ∧
  plainRuleSet <$> parse_entries [scenario] !! "test" =
    Some (PlainRuleSet.mk
            [HeadlessRule.mk "default"
               (DefaultHeadlessRule.mk ["example.com"; "foo.com"]
                                       [".foo.com"; ".bar"] ["ads"] [])]).
Proof.
  intros Hlower.
  assert (parse_entries [scenario] !! "test" =
          Some [Item.mk RuleTypeDomain "example.com";
                Item.mk RuleTypeDomain "foo.com";
                Item.mk RuleTypeDomainSuffix ".foo.com";
                Item.mk RuleTypeDomainSuffix ".bar";
                Item.mk RuleTypeDomainKeyword "ads"]) as ->.
  { unfold parse_entries. rewrite foldl_cons. simpl foldl.
    rewrite <-Hlower at 1.
    change "test" with (GeoSite.CountryCode scenario) at 1.
    by rewrite parse_entry_base. }
  by split.
Qed.

End Claims.

(** ** The release freshness gate *)

(** The events of generation: the download and everything [generate] does
    to the file system.  Fetching the two releases, logging and the action
    output are not generation. *)
Definition generation_event (ev : event) : bool :=
  match ev with
  | Download _ | Stderr _ | Create _ | Close _ | WriteDB _ _ | RemoveAll _
  | MkdirAll _ | WriteSRS _ _ | EncodeJSON _ _ _ _ => true
  | Fetch _ | LogInfo _ | LogWarn _ | LogFatal _ | Stdout _ => false
  end.

(** A run that did no generation work. *)
Definition skipped (run : M unit) : Prop :=
  Forall (λ ev, generation_event ev = false) run.1.

Lemma bind_trace {A B} (m : M A) (f : A → M B) :
  ∃ t, (m ≫= f).1 = m.1 ++ t.
Proof.
  destruct m as [t [a| |]]; simpl.
  - destruct (f a) as [t' r]. by exists t'.
  - exists []. by rewrite app_nil_r.
  - exists []. by rewrite app_nil_r.
Qed.

Section Release.
Context `{Runtime}.

(** [generate] starts with the download. *)
Lemma generate_trace release output cnOutput ruleSetOutput :
  ∃ t, (generate release output cnOutput ruleSetOutput).1 = Download release :: t.
Proof. unfold generate. apply (bind_trace (call (Download release) _)). Qed.

(** The events of writing the two rule-set files of one category. *)
Definition rule_set_events (ruleSetOutput : string) (kv : string * list Item.t)
    : list event :=
  let srsPath := Abs (Join ruleSetOutput ("geosite-" +:+ kv.1 +:+ ".srs")) in
  let jsonPath := Abs (Join ruleSetOutput ("geosite-" +:+ kv.1 +:+ ".json")) in
  [Stderr ("write " +:+ srsPath +:+ LF); Create srsPath;
   WriteSRS srsPath (plainRuleSet kv.2); Close srsPath;
   Stderr ("write " +:+ jsonPath +:+ LF); Create jsonPath;
   EncodeJSON jsonPath false "    " (plainRuleSet kv.2); Close jsonPath].

Lemma write_rule_set_ok ruleSetOutput kv :
  (∀ ev, io_error ev = None) →
  write_rule_set ruleSetOutput kv = (rule_set_events ruleSetOutput kv, Ok tt).
Proof.
  intros Hio. destruct kv as [code domains].
  unfold write_rule_set, rule_set_events, perform, call, emit, defer. simpl.
  by rewrite !Hio.
Qed.

Lemma for_each_ok {A} (body : A → M unit) (evs : A → list event) (l : list A) :
  (∀ x, body x = (evs x, Ok tt)) → for_each body l = (l ≫= evs, Ok tt).
Proof.
  intros Hbody. induction l as [|x l IH]; [done|].
  simpl. by rewrite Hbody, IH.
Qed.

(** X22. When the destination release cannot be fetched, [release] warns
    and generates: a missing destination is no error, and neither NO_SKIP
    nor the release names are looked at. *)
Lemma release_without_destination source destination output cnOutput ruleSetOutput
    sourceRelease e :
  fetch source = Ok sourceRelease → fetch destination = Err e →
  release source destination output cnOutput ruleSetOutput =
  (([Fetch source; Fetch destination; LogWarn "missing destination latest release"],
    Ok tt) ;;
   generate sourceRelease output cnOutput ruleSetOutput;;
   sourceName ← deref (RepositoryRelease.Name sourceRelease);
   setActionOutput "tag" sourceName).
Proof.
  intros Hsrc Hdst. unfold release. rewrite Hsrc, Hdst. simpl.
  by destruct (generate sourceRelease output cnOutput ruleSetOutput
               ≫= _) as [t r].
Qed.

(** C9. When both releases are fetched and named, the run does no
    generation work exactly when the destination name contains the source
    name as a substring and NO_SKIP is not "true".  A skipped run only logs
    "already latest" and sets the action output skip; any other run goes
    into [generate], whose first call is the download. *)
Theorem release_skipped_iff (source destination output cnOutput ruleSetOutput : string)
    (sourceName destinationName : string) :
  fetch source = Ok (RepositoryRelease.mk (Some sourceName)) →
  fetch destination = Ok (RepositoryRelease.mk (Some destinationName)) →
  (skipped (release source destination output cnOutput ruleSetOutput) ↔
     (∃ pre post, destinationName = pre +:+ sourceName +:+ post) ∧
     Getenv "NO_SKIP" ≠ "true") ∧
  (skipped (release source destination output cnOutput ruleSetOutput) →
     release source destination output cnOutput ruleSetOutput =
     ([Fetch source; Fetch destination; LogInfo "already latest";
       Stdout ("::set-output name=skip::true" +:+ LF)], Ok tt)) ∧
  (¬ skipped (release source destination output cnOutput ruleSetOutput) →
     ∃ t r, release source destination output cnOutput ruleSetOutput =
            (Fetch source :: Fetch destination ::
             Download (RepositoryRelease.mk (Some sourceName)) :: t, r)).
Proof.
  intros Hsrc Hdst.
  rewrite <-Contains_spec.
  set (sourceRelease := RepositoryRelease.mk (Some sourceName)) in *.
  set (rest := generate sourceRelease output cnOutput ruleSetOutput;;
               setActionOutput "tag" sourceName).
  assert (∃ t, rest.1 = Download sourceRelease :: t) as [t Ht].
  { destruct (generate_trace sourceRelease output cnOutput ruleSetOutput) as [t Ht].
    destruct (bind_trace (generate sourceRelease output cnOutput ruleSetOutput)
                (λ _, setActionOutput "tag" sourceName)) as [t' Ht'].
    exists (t ++ t'). unfold rest. by rewrite Ht', Ht. }
  assert (release source destination output cnOutput ruleSetOutput =
          if negb (String.eqb (Getenv "NO_SKIP") "true") &&
             Contains destinationName sourceName
          then ([Fetch source; Fetch destination; LogInfo "already latest";
                 Stdout ("::set-output name=skip::true" +:+ LF)], Ok tt)
          else (Fetch source :: Fetch destination :: rest.1, rest.2)) as Hrun.
  { unfold release, already_latest, rest. rewrite Hsrc, Hdst. simpl.
    destruct (String.eqb (Getenv "NO_SKIP") "true"); simpl.
    - by destruct (generate sourceRelease output cnOutput ruleSetOutput) as [t' [[]| |]].
    - destruct (Contains destinationName sourceName); simpl; [done|].
      by destruct (generate sourceRelease output cnOutput ruleSetOutput) as [t' [[]| |]]. }
  rewrite Hrun, Ht. clear Hrun.
  assert (¬ skipped (Fetch source :: Fetch destination :: Download sourceRelease :: t,
                     rest.2)) as Hns.
  { unfold skipped. simpl. rewrite !Forall_cons. simpl. by intros (_&_&?&_). }
  destruct (String.eqb (Getenv "NO_SKIP") "true") eqn:Henv; simpl.
  - apply String.eqb_eq in Henv.
    split; [split; [done | by intros [_ ?]]|]. split; [done|].
    intros _. by eexists _, _.
  - apply String.eqb_neq in Henv.
    destruct (Contains destinationName sourceName) eqn:Hsub.
    + assert (skipped ([Fetch source; Fetch destination; LogInfo "already latest";
                        Stdout ("::set-output name=skip::true" +:+ LF)], Ok tt)) as Hs.
      { unfold skipped. simpl. by repeat constructor. }
      split; [done|]. split; [done|]. by intros [].
    + split; [split; [done | by intros [? _]]|]. split; [done|].
      intros _. by eexists _, _.
Qed.

End Release.

(** ** The claims on concrete feeds *)

(** A runtime with nothing to decode and nothing to fetch. *)
Definition plain_runtime : Runtime := feed_runtime [] "" "" "" "".

Lemma scenario_compiles_witness :
  Compile <$> @parse_entries plain_runtime [scenario] !! "test" =
  Some (DefaultRule.mk ["example.com"; "foo.com"] [".foo.com"; ".bar"] ["ads"] []).
Proof. apply (@scenario_compiles plain_runtime). reflexivity. Defined.

(** An entry of a type the pipeline does not know (7). *)
Definition unknown_entry : Domain.t :=
  Domain.mk 7 "new.example" [Attribute.mk "ads" None].

Lemma unknown_entry_unknown : ¬ known_type unknown_entry.
Proof.
  unfold known_type, unknown_entry. simpl.
  rewrite !elem_of_cons, elem_of_nil. unfold Domain_Plain, Domain_Regex,
    Domain_RootDomain, Domain_Full. lia.
Defined.

Lemma unrecognized_type_dropped_witness :
  append_domain [Item.mk RuleTypeDomain "a.cn"] unknown_entry =
  [Item.mk RuleTypeDomain "a.cn"].
Proof.
  apply (@unrecognized_type_dropped plain_runtime unknown_entry unknown_entry_unknown).
Defined.

(** A feed of two records with the same code up to case; the earlier one
    has an entry tagged "ads", the later one an entry tagged "cn". *)
Definition earlier_record : GeoSite.t :=
  GeoSite.mk "GEO" [Domain.mk Domain_Full "old.example" [Attribute.mk "ads" None]].

Definition later_record : GeoSite.t :=
  GeoSite.mk "geo" [Domain.mk Domain_Full "a.cn" [Attribute.mk "cn" None];
                    Domain.mk Domain_Plain "shop" []].

Definition colliding_runtime : Runtime :=
  feed_runtime [earlier_record; later_record] "" "" "" "".

Lemma category_map_keys_witness :
  "geo@ads" ∈ dom (@parse_entries colliding_runtime [earlier_record; later_record]) ↔
  ∃ entries vGeositeEntry,
    @Unmarshal colliding_runtime [] = Ok entries ∧ vGeositeEntry ∈ entries ∧
    no_upper (@ToLower colliding_runtime (GeoSite.CountryCode vGeositeEntry)) ∧
    (is_ASCII (GeoSite.CountryCode vGeositeEntry) →
       @ToLower colliding_runtime (GeoSite.CountryCode vGeositeEntry) =
       ToLowerASCII (GeoSite.CountryCode vGeositeEntry)) ∧
    (¬ no_upper (GeoSite.CountryCode vGeositeEntry) →
       @ToLower colliding_runtime (GeoSite.CountryCode vGeositeEntry) ≠
       GeoSite.CountryCode vGeositeEntry) ∧
    ("geo@ads" = @ToLower colliding_runtime (GeoSite.CountryCode vGeositeEntry) ∨
     ∃ domain attribute,
       domain ∈ GeoSite.Domain vGeositeEntry ∧
       attribute ∈ Domain.Attribute domain ∧
       "geo@ads" = @ToLower colliding_runtime (GeoSite.CountryCode vGeositeEntry)
                   +:+ "@" +:+ Attribute.Key attribute).
Proof.
  exact (@category_map_keys colliding_runtime []
           (@parse_entries colliding_runtime [earlier_record; later_record])
           ToLowerASCII_lowercases eq_refl "geo@ads").
Defined.

(** The code "GEO" of the earlier record is a key in lowercase only. *)
Example upstream_case_not_kept :
  @parse_entries colliding_runtime [earlier_record; later_record] !! "GEO" = None ∧
  @parse_entries colliding_runtime [earlier_record; later_record] !! "GEO@ads" = None ∧
  is_Some (@parse_entries colliding_runtime [earlier_record; later_record] !! "geo") ∧
  is_Some (@parse_entries colliding_runtime [earlier_record; later_record] !! "geo@ads").
Proof. vm_compute. repeat split; by eexists. Qed.

(** C10, as it is stated, fails: of the keys "geo@..." the map of the two
    records holds, "geo@ads" comes from the earlier record "GEO" alone, and
    the later record "geo", which has no entry tagged "ads", leaves it as
    it is; taken alone, the later record gives no such category. *)
Lemma later_record_keeps_earlier_tags :
  ¬ (∀ a,
       is_Some (@parse_entries colliding_runtime [earlier_record; later_record]
                  !! ("geo" +:+ "@" +:+ a)) →
       @parse_entries colliding_runtime [earlier_record; later_record]
         !! ("geo" +:+ "@" +:+ a) =
       @parse_entries colliding_runtime [later_record] !! ("geo" +:+ "@" +:+ a)).
Proof.
  intros Hclaim. specialize (Hclaim "ads"). vm_compute in Hclaim.
  discriminate Hclaim. by eexists.
Qed.

Lemma later_record_overwrites_witness :
  @parse_entries colliding_runtime ([] ++ earlier_record :: [] ++ later_record :: [])
    !! @ToLower colliding_runtime (GeoSite.CountryCode earlier_record) =
  Some (Uniq (GeoSite.Domain later_record ≫= items_of)).
Proof.
  refine (proj1 (proj2 (@later_record_overwrites colliding_runtime [] [] []
                          earlier_record later_record _)) _).
  - reflexivity.
  - intros e He. by apply elem_of_nil in He.
Defined.

(** The source release is "202410010000"; the destination release was
    published from it. *)
Definition fresh_runtime : Runtime :=
  feed_runtime [] "" "Loyalsoldier/v2ray-rules-dat" "202410010000"
               "Released on 202410010000".

Lemma release_skipped_iff_witness :
  skipped (@release fresh_runtime "Loyalsoldier/v2ray-rules-dat"
             "minoriazure/sing-geosite" "geosite.db" "geosite-cn.db" "rule-set") ↔
  (∃ pre post, "Released on 202410010000" = pre +:+ "202410010000" +:+ post) ∧
  @Getenv fresh_runtime "NO_SKIP" ≠ "true".
Proof.
  apply (@release_skipped_iff fresh_runtime "Loyalsoldier/v2ray-rules-dat"
           "minoriazure/sing-geosite" "geosite.db" "geosite-cn.db" "rule-set"
           "202410010000" "Released on 202410010000").
  - reflexivity.
  - reflexivity.
Defined.

(** *** Further scenarios of the specification *)

(** §8, attribute fan-out: two entries tagged "ads" and one untagged. The
    pseudo-category holds the items of the two, the base list those of all
    three. *)
Example fan_out_scenario :
  let record :=
    GeoSite.mk "Shop"
      [Domain.mk Domain_Full "ad.example" [Attribute.mk "ads" None];
       Domain.mk Domain_RootDomain "site.example" [];
       Domain.mk Domain_Plain "track" [Attribute.mk "ads" None]] in
  @parse_entries plain_runtime [record] !! "shop@ads" =
    Some [Item.mk RuleTypeDomain "ad.example"; Item.mk RuleTypeDomainKeyword "track"] ∧
  @parse_entries plain_runtime [record] !! "shop" =
    Some [Item.mk RuleTypeDomain "ad.example";
          Item.mk RuleTypeDomain "site.example";
          Item.mk RuleTypeDomainSuffix ".site.example";
          Item.mk RuleTypeDomainKeyword "track"].
Proof. vm_compute. by split. Qed.

(** §8, second end-to-end scenario: one Full entry "a.cn" tagged "cn"
    under the code "geo" gives the categories "geo" and "geo@cn", each with
    the one Domain item. *)
Example geo_cn_scenario :
  @parse_entries plain_runtime
     [GeoSite.mk "geo" [Domain.mk Domain_Full "a.cn" [Attribute.mk "cn" None]]] =
  <["geo" := [Item.mk RuleTypeDomain "a.cn"]]>
    {["geo@cn" := [Item.mk RuleTypeDomain "a.cn"]]}.
Proof.
  apply map_eq. intros k.
  destruct (decide (k = "geo")) as [->|?]; [done|].
  destruct (decide (k = "geo@cn")) as [->|?]; [done|].
  rewrite lookup_insert_ne, lookup_singleton_ne by done.
  apply (@parse_entry_other plain_runtime).
  unfold entry_keys. simpl. rewrite !not_elem_of_cons.
  split; [done|]. split; [done|]. apply not_elem_of_nil.
Qed.

(** An entry of unknown type that alone carries a tag gives no item, yet
    its tag still makes a pseudo-category, an empty one. *)
Example unknown_type_empty_category :
  @parse_entries plain_runtime [GeoSite.mk "geo" [unknown_entry]] !! "geo@ads" = Some [] ∧
  @parse_entries plain_runtime [GeoSite.mk "geo" [unknown_entry]] !! "geo" = Some [].
Proof. vm_compute. by split. Qed.

(** Of two records with the same lowercased code, the later one replaces
    the base list and the lists of its own tags; a pseudo-category of a tag
    only the earlier record has stays as the earlier record wrote it. *)
Example earlier_pseudo_category_stays :
  @parse_entries colliding_runtime [earlier_record; later_record] !! "geo" =
    Some [Item.mk RuleTypeDomain "a.cn"; Item.mk RuleTypeDomainKeyword "shop"] ∧
  @parse_entries colliding_runtime [earlier_record; later_record] !! "geo@cn" =
    Some [Item.mk RuleTypeDomain "a.cn"] ∧
  @parse_entries colliding_runtime [earlier_record; later_record] !! "geo@ads" =
    Some [Item.mk RuleTypeDomain "old.example"].
Proof. vm_compute. by repeat split. Qed.

(** §7, missing subset key: the subset map has an empty entry for it. *)
Example missing_subset_key :
  cnDomainMap {["cn" := [Item.mk RuleTypeDomain "a.cn"]]} !! "geolocation-!cn" = Some [] ∧
  cnDomainMap {["cn" := [Item.mk RuleTypeDomain "a.cn"]]} !! "cn" =
    Some [Item.mk RuleTypeDomain "a.cn"].
Proof. vm_compute. by split. Qed.

(** Deduplication keeps the first of equal items. *)
Example Uniq_keeps_first :
  Uniq [Item.mk RuleTypeDomain "a"; Item.mk RuleTypeDomainSuffix ".b";
        Item.mk RuleTypeDomain "a"; Item.mk RuleTypeDomain "c";
        Item.mk RuleTypeDomainSuffix ".b"] =
  [Item.mk RuleTypeDomain "a"; Item.mk RuleTypeDomainSuffix ".b";
   Item.mk RuleTypeDomain "c"].
Proof. reflexivity. Qed.

(** A run of [release] that skips, and the same run forced by NO_SKIP. *)
Example release_skips :
  @release fresh_runtime "Loyalsoldier/v2ray-rules-dat" "minoriazure/sing-geosite"
     "geosite.db" "geosite-cn.db" "rule-set" =
  ([Fetch "Loyalsoldier/v2ray-rules-dat"; Fetch "minoriazure/sing-geosite";
    LogInfo "already latest"; Stdout ("::set-output name=skip::true" +:+ LF)],
   Ok tt).
Proof. reflexivity. Qed.

Example release_forced :
  @release (feed_runtime [scenario] "true" "Loyalsoldier/v2ray-rules-dat"
              "202410010000" "Released on 202410010000")
     "Loyalsoldier/v2ray-rules-dat" "minoriazure/sing-geosite"
     "geosite.db" "geosite-cn.db" "rule-set" =
  (let release := RepositoryRelease.mk (Some "202410010000") in
   let items := [Item.mk RuleTypeDomain "example.com";
                 Item.mk RuleTypeDomain "foo.com";
                 Item.mk RuleTypeDomainSuffix ".foo.com";
                 Item.mk RuleTypeDomainSuffix ".bar";
                 Item.mk RuleTypeDomainKeyword "ads"] in
   let ruleSet :=
     PlainRuleSet.mk
       [HeadlessRule.mk "default"
          (DefaultHeadlessRule.mk ["example.com"; "foo.com"]
                                  [".foo.com"; ".bar"] ["ads"] [])] in
   [Fetch "Loyalsoldier/v2ray-rules-dat"; Fetch "minoriazure/sing-geosite";
    Download release;
    Stderr ("write geosite.db" +:+ LF);
    Create "geosite.db";
    WriteDB "geosite.db" {["test" := items]};
    Create "geosite-cn.db";
    WriteDB "geosite-cn.db"
      (<["category-companies@cn" := []]>
         (<["geolocation-!cn" := []]> {["cn" := []]}));
    RemoveAll "rule-set";
    MkdirAll "rule-set";
    Stderr ("write rule-set/geosite-test.srs" +:+ LF);
    Create "rule-set/geosite-test.srs";
    WriteSRS "rule-set/geosite-test.srs" ruleSet;
    Close "rule-set/geosite-test.srs";
    Stderr ("write rule-set/geosite-test.json" +:+ LF);
    Create "rule-set/geosite-test.json";
    EncodeJSON "rule-set/geosite-test.json" false "    " ruleSet;
    Close "rule-set/geosite-test.json";
    Close "geosite-cn.db";
    Close "geosite.db";
    Stdout ("::set-output name=tag::202410010000" +:+ LF)],
   Ok tt).
Proof. vm_compute. reflexivity. Qed.


(** ** Invariants of the category map *)

(** What one domain entry can give: at most two items, each of a kind and
    with a value fixed by the entry's type. *)
Lemma items_of_cases (domain : Domain.t) :
  items_of domain = [Item.mk RuleTypeDomainKeyword (Domain.Value domain)] ∧
    Domain.Type_ domain = Domain_Plain ∨
  items_of domain = [Item.mk RuleTypeDomainRegex (Domain.Value domain)] ∧
    Domain.Type_ domain = Domain_Regex ∨
  items_of domain = [Item.mk RuleTypeDomain (Domain.Value domain);
                     Item.mk RuleTypeDomainSuffix ("." +:+ Domain.Value domain)] ∧
    Domain.Type_ domain = Domain_RootDomain ∧
    Contains (Domain.Value domain) "." = true ∨
  items_of domain = [Item.mk RuleTypeDomainSuffix ("." +:+ Domain.Value domain)] ∧
    Domain.Type_ domain = Domain_RootDomain ∧
    Contains (Domain.Value domain) "." = false ∨
  items_of domain = [Item.mk RuleTypeDomain (Domain.Value domain)] ∧
    Domain.Type_ domain = Domain_Full ∨
  items_of domain = [] ∧ ¬ known_type domain.
Proof.
  unfold items_of, append_domain, known_type.
  destruct (Domain.Type_ domain =? Domain_Plain) eqn:H0.
  { apply Z.eqb_eq in H0. by left. }
  destruct (Domain.Type_ domain =? Domain_Regex) eqn:H1.
  { apply Z.eqb_eq in H1. right. by left. }
  destruct (Domain.Type_ domain =? Domain_RootDomain) eqn:H2.
  { apply Z.eqb_eq in H2.
    destruct (Contains (Domain.Value domain) ".") eqn:Hdot.
    - right. right. by left.
    - right. right. right. by left. }
  destruct (Domain.Type_ domain =? Domain_Full) eqn:H3.
  { apply Z.eqb_eq in H3. right. right. right. right. by left. }
  do 5 right. split; [done|].
  apply Z.eqb_neq in H0, H1, H2, H3.
  rewrite !elem_of_cons, elem_of_nil. tauto.
Qed.

Lemma length_items_of (domain : Domain.t) : (length (items_of domain) ≤ 2)%nat.
Proof.
  destruct (items_of_cases domain)
    as [[-> _]|[[-> _]|[[-> _]|[[-> _]|[[-> _]|[-> _]]]]]]; simpl; lia.
Qed.

Lemma length_bind_items_of (l : list Domain.t) :
  (length (l ≫= items_of) ≤ 2 * length l)%nat.
Proof.
  induction l as [|d l IH]; [done|].
  rewrite bind_cons, length_app. pose proof (length_items_of d). simpl. lia.
Qed.

(** X1. The two slices [parse] fills are made with capacity twice the
    number of entries (lines 97 and 136), and the loops never fill them
    beyond it: a record of n entries gives at most 2n items, and a tag
    carried n times at most 2n. *)
Theorem parse_capacity_suffices (l : list Domain.t) :
  (length (scan_domains l).1 ≤ 2 * length l)%nat ∧
  (length (foldl append_attribute_domain [] l) ≤ 2 * length l)%nat.
Proof.
  rewrite scan_domains_1, foldl_append_attribute_domain.
  split; apply length_bind_items_of.
Qed.

(** A suffix item is "." and the value of its entry. *)
Lemma items_of_suffix (domain : Domain.t) (item : Item.t) :
  item ∈ items_of domain → Item.Type_ item = RuleTypeDomainSuffix →
  Item.Value item = "." +:+ Domain.Value domain ∧
  Domain.Type_ domain = Domain_RootDomain.
Proof.
  intros Hin Hty.
  destruct (items_of_cases domain)
    as [[Heq ?]|[[Heq ?]|[[Heq [? ?]]|[[Heq [? ?]]|[[Heq ?]|[Heq ?]]]]]];
    rewrite Heq in Hin;
    repeat (apply elem_of_cons in Hin as [->|Hin]); try (by apply elem_of_nil in Hin);
    by simplify_eq/=.
Qed.

(** A Domain item whose value has no '.' comes from a Full entry. *)
Lemma items_of_domain_dotless (domain : Domain.t) (item : Item.t) :
  item ∈ items_of domain → Item.Type_ item = RuleTypeDomain →
  Item.Value item = Domain.Value domain ∧
  (Domain.Type_ domain = Domain_Full ∨
   Domain.Type_ domain = Domain_RootDomain ∧ Contains (Item.Value item) "." = true).
Proof.
  intros Hin Hty.
  destruct (items_of_cases domain)
    as [[Heq ?]|[[Heq ?]|[[Heq [? ?]]|[[Heq [? ?]]|[[Heq ?]|[Heq ?]]]]]];
    rewrite Heq in Hin;
    repeat (apply elem_of_cons in Hin as [->|Hin]); try (by apply elem_of_nil in Hin);
    simplify_eq/=; auto.
Qed.

Section MapInvariants.
Context `{Runtime}.

Lemma parse_entry_Forall (P : string → list Item.t → Prop)
    (domainMap : gmap string (list Item.t)) (vGeositeEntry : GeoSite.t) :
  map_Forall P domainMap →
  P (ToLower (GeoSite.CountryCode vGeositeEntry))
    (Uniq (GeoSite.Domain vGeositeEntry ≫= items_of)) →
  (∀ a, a ∈ tags (GeoSite.Domain vGeositeEntry) →
     P (ToLower (GeoSite.CountryCode vGeositeEntry) +:+ "@" +:+ a)
       (Uniq (filter (carries a) (GeoSite.Domain vGeositeEntry) ≫= items_of))) →
  map_Forall P (parse_entry domainMap vGeositeEntry).
Proof.
  intros Hmap Hbase Htag k v Hlook.
  destruct (decide (k ∈ entry_keys vGeositeEntry)) as [Hin|Hnin].
  - unfold entry_keys in Hin.
    apply elem_of_cons in Hin as [->|(a & -> & Ha)%list_elem_of_fmap].
    + rewrite parse_entry_base in Hlook. by simplify_eq.
    + rewrite parse_entry_tag in Hlook by done. simplify_eq. by apply Htag.
  - rewrite parse_entry_other in Hlook by done. by apply Hmap.
Qed.

(** An invariant that every record keeps holds of the whole map. *)
Lemma parse_entries_Forall (P : string → list Item.t → Prop) (entries : list GeoSite.t) :
  (∀ e, e ∈ entries →
     P (ToLower (GeoSite.CountryCode e)) (Uniq (GeoSite.Domain e ≫= items_of)) ∧
     ∀ a, a ∈ tags (GeoSite.Domain e) →
       P (ToLower (GeoSite.CountryCode e) +:+ "@" +:+ a)
         (Uniq (filter (carries a) (GeoSite.Domain e) ≫= items_of))) →
  map_Forall P (parse_entries entries).
Proof.
  unfold parse_entries.
  assert (∀ l domainMap, map_Forall P domainMap →
    (∀ e, e ∈ l →
       P (ToLower (GeoSite.CountryCode e)) (Uniq (GeoSite.Domain e ≫= items_of)) ∧
       ∀ a, a ∈ tags (GeoSite.Domain e) →
         P (ToLower (GeoSite.CountryCode e) +:+ "@" +:+ a)
           (Uniq (filter (carries a) (GeoSite.Domain e) ≫= items_of))) →
    map_Forall P (foldl parse_entry domainMap l)) as Hgen.
  { induction l as [|e l IH]; intros domainMap Hmap Hl; [done|].
    rewrite foldl_cons. apply IH.
    - destruct (Hl e) as [Hbase Htag]; [by left|]. by apply parse_entry_Forall.
    - intros e' He'. apply Hl. by right. }
  intros Hl. apply Hgen; [apply map_Forall_empty | done].
Qed.

(** X2. No list of the category map holds an item twice: §3's invariant
    "no two items are structurally equal", for base categories and
    pseudo-categories, whatever the feed. *)
Theorem category_lists_NoDup (entries : list GeoSite.t) :
  map_Forall (λ _ items, NoDup items) (parse_entries entries).
Proof.
  apply parse_entries_Forall. intros e _. split; [apply NoDup_Uniq|].
  intros a _. apply NoDup_Uniq.
Qed.

(** X3. Every item of the category map has an origin: an entry of a record
    of the feed that the type table maps to this item; the record's
    lowercased code is the key, or the key is the pseudo-category of a tag
    the entry carries.  The map holds nothing the feed does not give. *)
Theorem category_items_have_origin (entries : list GeoSite.t) :
  map_Forall (λ k items, ∀ item, item ∈ items →
    ∃ vGeositeEntry domain,
      vGeositeEntry ∈ entries ∧ domain ∈ GeoSite.Domain vGeositeEntry ∧
      item ∈ items_of domain ∧
      (k = ToLower (GeoSite.CountryCode vGeositeEntry) ∨
       ∃ a, carries a domain ∧
            k = ToLower (GeoSite.CountryCode vGeositeEntry) +:+ "@" +:+ a))
    (parse_entries entries).
Proof.
  set (P := λ (k : string) (items : list Item.t), ∀ item, item ∈ items →
    ∃ vGeositeEntry domain,
      vGeositeEntry ∈ entries ∧ domain ∈ GeoSite.Domain vGeositeEntry ∧
      item ∈ items_of domain ∧
      (k = ToLower (GeoSite.CountryCode vGeositeEntry) ∨
       ∃ a, carries a domain ∧
            k = ToLower (GeoSite.CountryCode vGeositeEntry) +:+ "@" +:+ a)).
  assert (∀ l, (∀ e, e ∈ l → e ∈ entries) → map_Forall P (parse_entries l)) as Hgen.
  { intros l Hsub. apply parse_entries_Forall. intros e He. split.
    - intros item (domain & Hitem & Hd)%elem_of_Uniq%list_elem_of_bind.
      exists e, domain. split; [by apply Hsub|]. split; [done|]. split; [done|]. by left.
    - intros a Ha item (domain & Hitem & Hd)%elem_of_Uniq%list_elem_of_bind.
      apply list_elem_of_filter in Hd as [Hc Hd].
      exists e, domain. split; [by apply Hsub|]. split; [done|]. split; [done|].
      right. by exists a. }
  by apply Hgen.
Qed.

(** X4. In every category, a DomainSuffix item begins with "." and is "."
    followed by the value of a RootDomain entry of the feed; a Domain item
    is the unchanged value of a Full entry or of a RootDomain entry whose
    value has a '.'. *)
Theorem category_item_shapes (entries : list GeoSite.t) :
  map_Forall (λ _ items, ∀ item, item ∈ items →
    (Item.Type_ item = RuleTypeDomainSuffix →
       ∃ vGeositeEntry domain,
         vGeositeEntry ∈ entries ∧ domain ∈ GeoSite.Domain vGeositeEntry ∧
         Domain.Type_ domain = Domain_RootDomain ∧
         Item.Value item = "." +:+ Domain.Value domain) ∧
    (Item.Type_ item = RuleTypeDomain →
       ∃ vGeositeEntry domain,
         vGeositeEntry ∈ entries ∧ domain ∈ GeoSite.Domain vGeositeEntry ∧
         Item.Value item = Domain.Value domain ∧
         (Domain.Type_ domain = Domain_Full ∨
          Domain.Type_ domain = Domain_RootDomain ∧
          ∃ pre post, Item.Value item = pre +:+ "." +:+ post)))
    (parse_entries entries).
Proof.
  apply parse_entries_Forall. intros e He.
  assert (∀ l item, (∀ d, d ∈ l → d ∈ GeoSite.Domain e) → item ∈ Uniq (l ≫= items_of) →
    (Item.Type_ item = RuleTypeDomainSuffix →
       ∃ vGeositeEntry domain,
         vGeositeEntry ∈ entries ∧ domain ∈ GeoSite.Domain vGeositeEntry ∧
         Domain.Type_ domain = Domain_RootDomain ∧
         Item.Value item = "." +:+ Domain.Value domain) ∧
    (Item.Type_ item = RuleTypeDomain →
       ∃ vGeositeEntry domain,
         vGeositeEntry ∈ entries ∧ domain ∈ GeoSite.Domain vGeositeEntry ∧
         Item.Value item = Domain.Value domain ∧
         (Domain.Type_ domain = Domain_Full ∨
          Domain.Type_ domain = Domain_RootDomain ∧
          ∃ pre post, Item.Value item = pre +:+ "." +:+ post))) as Hshape.
  { intros l item Hsub (domain & Hin & Hd)%elem_of_Uniq%list_elem_of_bind.
    split; intros Hty.
    - destruct (items_of_suffix domain item Hin Hty) as [Hv Ht].
      exists e, domain. split; [done|]. split; [by apply Hsub|]. done.
    - destruct (items_of_domain_dotless domain item Hin Hty) as [Hv Ht].
      exists e, domain. split; [done|]. split; [by apply Hsub|]. split; [done|].
      destruct Ht as [?|[? Hdot]]; [by left|]. right. split; [done|].
      by apply Contains_spec. }
  split.
  - intros item. by apply Hshape.
  - intros a _ item. apply Hshape. by intros d [_ ?]%list_elem_of_filter.
Qed.

End MapInvariants.

Section MoreParse.
Context `{Runtime}.

(** X5. Go ranges over the side table [attributes] in an order that
    changes from run to run.  Whatever the order in which the loop of lines
    135-168 takes the tags, the category map after the record is the same:
    the output of [parse] does not depend on map iteration order. *)
Theorem range_order_irrelevant (domainMap : gmap string (list Item.t))
    (vGeositeEntry : GeoSite.t) (order : list (string * list Domain.t)) :
  order ≡ₚ map_to_list (scan_domains (GeoSite.Domain vGeositeEntry)).2 →
  write_attributes (ToLower (GeoSite.CountryCode vGeositeEntry)) order
    (<[ToLower (GeoSite.CountryCode vGeositeEntry) :=
         Uniq (scan_domains (GeoSite.Domain vGeositeEntry)).1]> domainMap) =
  parse_entry domainMap vGeositeEntry.
Proof.
  intros Hperm. unfold parse_entry.
  destruct (scan_domains (GeoSite.Domain vGeositeEntry)) as [domains attributes].
  simpl in *. apply write_attributes_perm; [|done].
  rewrite Hperm. apply NoDup_fst_map_to_list.
Qed.

Lemma NoDup_bucket_Compile (k : ItemType) (code : list Item.t) :
  NoDup code → NoDup (bucket k (Compile code)).
Proof.
  intros Hnd. rewrite bucket_Compile. apply NoDup_fmap_2_strong.
  - intros [ty v] [ty' v'] [Hty _]%list_elem_of_filter [Hty' _]%list_elem_of_filter Hv.
    simpl in *. by subst.
  - by apply NoDup_filter.
Qed.

(** X6. Each of the four lists [generate] puts in the rule set of a
    category (lines 216-222) is duplicate-free, for every category of every
    feed: deduplication before compilation is enough. *)
Theorem compiled_buckets_NoDup (entries : list GeoSite.t) :
  map_Forall (λ _ items, ∀ k, NoDup (bucket k (Compile items)))
             (parse_entries entries).
Proof.
  apply parse_entries_Forall. intros e _.
  split; [|intros a _]; intros k; apply NoDup_bucket_Compile, NoDup_Uniq.
Qed.

End MoreParse.

(** ** Properties of [generate] *)

(** The paths of the files a trace opened (an [os.Create] that did not
    fail) and of the files it closed, in order. *)
Definition opened `{Runtime} (t : list event) : list string :=
  omap (λ ev, match ev with
              | Create path =>
                  match io_error (Create path) with None => Some path | Some _ => None end
              | _ => None
              end) t.

Definition closed (t : list event) : list string :=
  omap (λ ev, match ev with Close path => Some path | _ => None end) t.

(** The calls whose error [generate] returns. *)
Definition fallible (ev : event) : bool :=
  match ev with
  | Create _ | WriteDB _ _ | MkdirAll _ | WriteSRS _ _ | EncodeJSON _ _ _ _ => true
  | _ => false
  end.

Definition is_Close (ev : event) : Prop :=
  match ev with Close _ => True | _ => False end.

Section Generate.
Context `{Runtime}.

(** [owes ps m]: the run [m] closes the files [ps], and every file it
    opens itself. *)
Definition owes {A} (ps : list string) (m : M A) : Prop :=
  closed m.1 ≡ₚ ps ++ opened m.1.

Lemma owes_bind {A B} ps (m : M A) (f : A → M B) :
  owes ps m → (∀ a, owes [] (f a)) → owes ps (m ≫= f).
Proof.
  unfold owes. intros Hm Hf. destruct m as [t [a| |]]; simpl in *; try done.
  specialize (Hf a). destruct (f a) as [t' r]. simpl in *.
  unfold opened, closed in *. rewrite !omap_app, Hm, Hf. by rewrite <-app_assoc.
Qed.

Lemma owes_quiet {A} (ev : event) (r : result A) :
  (∀ path, ev ≠ Create path) → (∀ path, ev ≠ Close path) → owes [] (call ev r).
Proof. unfold owes. intros Hc Hcl. by destruct ev; simpl; try done; [destruct (Hc path)|destruct (Hcl path)]. Qed.

Lemma owes_perform_quiet (ev : event) :
  (∀ path, ev ≠ Create path) → (∀ path, ev ≠ Close path) → owes [] (perform ev).
Proof. apply owes_quiet. Qed.

Lemma owes_emit_quiet (ev : event) :
  (∀ path, ev ≠ Create path) → (∀ path, ev ≠ Close path) → owes [] (emit ev).
Proof. apply owes_quiet. Qed.

Lemma owes_create {A} (path : string) (k : M A) :
  owes [path] k → owes [] (perform (Create path);; k).
Proof.
  unfold owes, perform, call. intros Hk.
  destruct (io_error (Create path)) as [e|] eqn:Hio; simpl.
  - unfold opened. simpl. by rewrite Hio.
  - destruct k as [t r]. simpl in *. unfold opened in *. simpl. by rewrite Hio.
Qed.

Lemma owes_defer {A} (path : string) (ps : list string) (body : M A) :
  owes ps body → owes (path :: ps) (defer (Close path) body).
Proof.
  unfold owes, defer. destruct body as [t r]. simpl. intros Hb.
  unfold opened, closed in *. rewrite !omap_app, Hb. simpl.
  by rewrite app_nil_r, <-Permutation_cons_append.
Qed.

Lemma owes_for_each {A} (body : A → M unit) (l : list A) :
  (∀ x, owes [] (body x)) → owes [] (for_each body l).
Proof.
  intros Hbody. induction l as [|x l IH]; [by unfold owes|].
  simpl. apply owes_bind; [apply Hbody | by intros _].
Qed.

Lemma owes_write_rule_set ruleSetOutput kv : owes [] (write_rule_set ruleSetOutput kv).
Proof.
  destruct kv as [code domains]. unfold write_rule_set.
  apply owes_bind; [by apply owes_emit_quiet|]. intros _.
  apply owes_create. apply owes_bind.
  { apply owes_defer. by apply owes_perform_quiet. }
  intros _. apply owes_bind; [by apply owes_emit_quiet|]. intros _.
  apply owes_create. apply owes_defer. by apply owes_perform_quiet.
Qed.

(** X7. [generate] leaks no file handle: on success and on every failure,
    the files it closes are exactly the files whose [os.Create] succeeded,
    each once.  (The two databases are closed by [defer], the rule-set files
    on both branches after the write.) *)
Theorem generate_closes_what_it_opens (release : RepositoryRelease.t)
    (output cnOutput ruleSetOutput : string) :
  closed (generate release output cnOutput ruleSetOutput).1 ≡ₚ
  opened (generate release output cnOutput ruleSetOutput).1.
Proof.
  change (owes [] (generate release output cnOutput ruleSetOutput)).
  unfold generate.
  apply owes_bind; [by apply owes_quiet|]. intros vData.
  apply owes_bind; [by unfold owes|]. intros domainMap.
  apply owes_bind; [by apply owes_emit_quiet|]. intros _.
  apply owes_create, owes_defer.
  apply owes_bind; [by apply owes_perform_quiet|]. intros _.
  apply owes_create, owes_defer.
  apply owes_bind; [by apply owes_perform_quiet|]. intros _.
  apply owes_bind; [by apply owes_emit_quiet|]. intros _.
  apply owes_bind; [by apply owes_perform_quiet|]. intros _.
  apply owes_for_each. intros kv. apply owes_write_rule_set.
Qed.

End Generate.

Section GenerateFailures.
Context `{Runtime}.

(** [fails_fast m]: when a call of the run [m] whose error is checked
    fails, the run returns that error, and what follows the call in the
    trace is only the closing of files. *)
Definition fails_fast {A} (m : M A) : Prop :=
  ∀ t1 ev t2 e,
    m.1 = t1 ++ ev :: t2 → fallible ev = true → io_error ev = Some e →
    m.2 = Err e ∧ Forall is_Close t2.

Lemma fails_fast_bind {A B} (m : M A) (f : A → M B) :
  fails_fast m → (∀ a, fails_fast (f a)) → fails_fast (m ≫= f).
Proof.
  intros Hm Hf t1 ev t2 e Heq Hfal Hio.
  destruct m as [t [a| |]]; simpl in *;
    [|destruct (Hm t1 ev t2 e Heq Hfal Hio) as [Hr Hcl]; simpl in Hr; by simplify_eq..].
  specialize (Hf a). destruct (f a) as [t' r] eqn:Hfa. simpl in *.
  apply app_eq_inv in Heq as [(k & -> & Hk)|(k & -> & ->)].
  - destruct k as [|ev' k].
    + simpl in Hk. subst t'. by apply (Hf [] ev t2 e).
    + simpl in Hk. injection Hk as Hev Ht2. subst ev' t2.
      by destruct (Hm t1 ev k e eq_refl Hfal Hio).
  - by apply (Hf k ev t2 e).
Qed.

Lemma fails_fast_perform (ev : event) : fails_fast (perform ev).
Proof.
  intros t1 ev' t2 e Heq Hfal Hio. unfold perform, call in *. simpl in *.
  destruct t1 as [|? [|]]; simplify_eq/=. by rewrite Hio.
Qed.

Lemma fails_fast_call {A} (ev : event) (r : result A) :
  fallible ev = false → fails_fast (call ev r).
Proof.
  intros Hq t1 ev' t2 e Heq Hfal Hio. simpl in *.
  destruct t1 as [|? [|]]; simplify_eq/=. congruence.
Qed.

Lemma fails_fast_emit (ev : event) : fallible ev = false → fails_fast (emit ev).
Proof. apply fails_fast_call. Qed.

Lemma fails_fast_lift {A} (r : result A) : fails_fast (lift r).
Proof. intros t1 ev t2 e' Heq. destruct t1; simplify_eq/=. Qed.

Lemma fails_fast_defer {A} (path : string) (body : M A) :
  fails_fast body → fails_fast (defer (Close path) body).
Proof.
  intros Hb t1 ev t2 e. unfold defer. destruct body as [t r]. simpl.
  intros Heq Hfal Hio.
  destruct t2 as [|ev2 t2 _] using rev_ind.
  - apply (app_inj_2 _ _ _ [_]) in Heq as [_ Heq]; [|done]. by simplify_eq/=.
  - rewrite app_comm_cons, app_assoc in Heq.
    apply (app_inj_2 _ _ _ [_]) in Heq as [-> Heq]; [|done]. simplify_eq.
    destruct (Hb t1 ev t2 e eq_refl Hfal Hio) as [Hr Hcl].
    split; [done|]. apply Forall_app. split; [done|]. by repeat constructor.
Qed.

Lemma fails_fast_for_each {A} (body : A → M unit) (l : list A) :
  (∀ x, fails_fast (body x)) → fails_fast (for_each body l).
Proof.
  intros Hbody. induction l as [|x l IH].
  - intros t1 ev t2 e' Heq. destruct t1; simplify_eq/=.
  - simpl. apply fails_fast_bind; [apply Hbody | by intros _].
Qed.

(** X8. [generate] fails fast.  When [os.Create], [geosite.Write],
    [os.MkdirAll], [srs.Write] or the JSON encoder returns an error,
    [generate] returns that very error and makes no further call but the
    closing of the files it has open: nothing is written after a failure.
    (An error of [os.RemoveAll] or of a write to standard error is not
    looked at, line 211.) *)
Theorem generate_fails_fast (release : RepositoryRelease.t)
    (output cnOutput ruleSetOutput : string) (t1 t2 : list event) (ev : event)
    (e : error) :
  (generate release output cnOutput ruleSetOutput).1 = t1 ++ ev :: t2 →
  fallible ev = true → io_error ev = Some e →
  (generate release output cnOutput ruleSetOutput).2 = Err e ∧ Forall is_Close t2.
Proof.
  revert t1 ev t2 e.
  change (fails_fast (generate release output cnOutput ruleSetOutput)).
  unfold generate.
  apply fails_fast_bind; [by apply fails_fast_call|]. intros vData.
  apply fails_fast_bind; [apply fails_fast_lift|]. intros domainMap.
  apply fails_fast_bind; [by apply fails_fast_emit|]. intros _.
  apply fails_fast_bind; [apply fails_fast_perform|]. intros _.
  apply fails_fast_defer.
  apply fails_fast_bind; [apply fails_fast_perform|]. intros _.
  apply fails_fast_bind; [apply fails_fast_perform|]. intros _.
  apply fails_fast_defer.
  apply fails_fast_bind; [apply fails_fast_perform|]. intros _.
  apply fails_fast_bind; [by apply fails_fast_emit|]. intros _.
  apply fails_fast_bind; [apply fails_fast_perform|]. intros _.
  apply fails_fast_for_each. intros [code domains]. unfold write_rule_set.
  apply fails_fast_bind; [by apply fails_fast_emit|]. intros _.
  apply fails_fast_bind; [apply fails_fast_perform|]. intros _.
  apply fails_fast_bind; [apply fails_fast_defer, fails_fast_perform|]. intros _.
  apply fails_fast_bind; [by apply fails_fast_emit|]. intros _.
  apply fails_fast_bind; [apply fails_fast_perform|]. intros _.
  apply fails_fast_defer, fails_fast_perform.
Qed.

(** X9. When the download or the decoding of the blob fails, [generate]
    returns the error before it touches the file system: its only call is
    the download. *)
Theorem generate_aborts_before_writing (release : RepositoryRelease.t)
    (output cnOutput ruleSetOutput : string) (e : error) :
  (download release = Err e →
     generate release output cnOutput ruleSetOutput = ([Download release], Err e)) ∧
  (∀ vData, download release = Ok vData → Unmarshal vData = Err e →
     generate release output cnOutput ruleSetOutput = ([Download release], Err e)).
Proof.
  unfold generate, parse. split.
  - by intros ->.
  - intros vData -> Hdec. simpl. by rewrite Hdec.
Qed.

Lemma bind_Ok_inv {A B} (m : M A) (f : A → M B) t (b : B) :
  m ≫= f = (t, Ok b) →
  ∃ a t1 t2, m = (t1, Ok a) ∧ f a = (t2, Ok b) ∧ t = t1 ++ t2.
Proof.
  destruct m as [t1 [a| |]]; simpl; [|done..].
  destruct (f a) as [t2 r] eqn:Hfa. intros [= <- ->]. by exists a, t1, t2.
Qed.

Lemma perform_Ok_inv (ev : event) t (u : unit) :
  perform ev = (t, Ok u) → t = [ev] ∧ io_error ev = None.
Proof.
  unfold perform, call. destruct (io_error ev); [done|]. by intros [= <-].
Qed.

Lemma defer_Ok_inv {A} (ev : event) (body : M A) t (a : A) :
  defer ev body = (t, Ok a) → ∃ t', body = (t', Ok a) ∧ t = t' ++ [ev].
Proof. unfold defer. destruct body as [t' r]. intros [= <- ->]. by exists t'. Qed.

Lemma write_rule_set_Ok_inv ruleSetOutput kv t (u : unit) :
  write_rule_set ruleSetOutput kv = (t, Ok u) → t = rule_set_events ruleSetOutput kv.
Proof.
  destruct kv as [code domains]. unfold write_rule_set.
  intros (? & ? & ? & [= <- <-] & Hk & ->)%bind_Ok_inv.
  apply bind_Ok_inv in Hk as (? & ? & ? & [-> _]%perform_Ok_inv & Hk & ->).
  apply bind_Ok_inv in Hk as (? & ? & ? & Hd & Hk & ->).
  apply defer_Ok_inv in Hd as (? & [-> _]%perform_Ok_inv & ->).
  apply bind_Ok_inv in Hk as (? & ? & ? & [= <- <-] & Hk & ->).
  apply bind_Ok_inv in Hk as (? & ? & ? & [-> _]%perform_Ok_inv & Hk & ->).
  apply defer_Ok_inv in Hk as (? & [-> _]%perform_Ok_inv & ->).
  done.
Qed.

Lemma for_each_Ok_inv {A} (body : A → M unit) (evs : A → list event) (l : list A)
    t (u : unit) :
  (∀ x t' u', body x = (t', Ok u') → t' = evs x) →
  for_each body l = (t, Ok u) → t = l ≫= evs.
Proof.
  intros Hbody. revert t. induction l as [|x l IH]; intros t.
  - by intros [= <-].
  - simpl. intros (u' & t1 & t2 & Hx & Hl & ->)%bind_Ok_inv.
    by rewrite (Hbody _ _ _ Hx), (IH _ Hl).
Qed.

(** [generate] (lines 173-260) with the order of the range over
    [domainMap] (line 216) left to the run: Go fixes no order for a range
    over a map, and [range] gives the entries of the map in the order the
    run takes them.  [generate] is the run that takes them in the order of
    [map_to_list]. *)
Definition generate_in_order
    (range : gmap string (list Item.t) → list (string * list Item.t))
    (release : RepositoryRelease.t) (output cnOutput ruleSetOutput : string)
    : M unit :=
  vData ← call (Download release) (download release);
  domainMap ← lift (parse vData);
  emit (Stderr ("write " +:+ Abs output +:+ LF));;
  perform (Create output);;
  defer (Close output) (
    perform (WriteDB output domainMap);;
    perform (Create cnOutput);;
    defer (Close cnOutput) (
      perform (WriteDB cnOutput (cnDomainMap domainMap));;
      emit (RemoveAll ruleSetOutput);;
      perform (MkdirAll ruleSetOutput);;
      for_each (write_rule_set ruleSetOutput) (range domainMap))).

(** A range over a map takes every entry of the map, each once. *)
Definition ranges (range : gmap string (list Item.t) → list (string * list Item.t))
    : Prop :=
  ∀ domainMap, range domainMap ≡ₚ map_to_list domainMap.

Lemma generate_in_map_order (release : RepositoryRelease.t)
    (output cnOutput ruleSetOutput : string) :
  generate release output cnOutput ruleSetOutput =
  generate_in_order map_to_list release output cnOutput ruleSetOutput.
Proof. reflexivity. Qed.

(** Whatever the order of the range, the events of the two rule sets of
    each category are in the trace, one after the other. *)
Lemma rule_set_events_in_trace
    (range : gmap string (list Item.t) → list (string * list Item.t))
    (domainMap : gmap string (list Item.t)) (ruleSetOutput : string)
    (before after : list event) (code : string) (domains : list Item.t) :
  ranges range → domainMap !! code = Some domains →
  ∃ t1 t2,
    before ++ (range domainMap ≫= rule_set_events ruleSetOutput) ++ after =
    t1 ++ rule_set_events ruleSetOutput (code, domains) ++ t2.
Proof.
  intros Hrange Hlook.
  assert ((code, domains) ∈ range domainMap) as Hin.
  { rewrite (Hrange domainMap). by apply elem_of_map_to_list. }
  apply list_elem_of_split in Hin as (l1 & l2 & ->).
  exists (before ++ (l1 ≫= rule_set_events ruleSetOutput)),
         ((l2 ≫= rule_set_events ruleSetOutput) ++ after).
  by rewrite bind_app, bind_cons, <-!app_assoc.
Qed.

(** X10. A successful [generate] has done all of its work, whatever the
    order in which the run ranges over the map: if it returns no error, the
    blob was downloaded and decoded, and the calls made are exactly the
    writing of the full database, of the subset database, then, the
    rule-set directory removed and made anew, of the binary and the JSON
    rule set of the categories in the order ranged, then the closing of the
    two databases; the two rule sets of every category of the map are among
    them. *)
Theorem generate_success_complete
    (range : gmap string (list Item.t) → list (string * list Item.t))
    (release : RepositoryRelease.t)
    (output cnOutput ruleSetOutput : string) (t : list event) :
  ranges range →
  generate_in_order range release output cnOutput ruleSetOutput = (t, Ok tt) →
  ∃ vData domainMap,
    download release = Ok vData ∧ parse vData = Ok domainMap ∧
    t = [Download release; Stderr ("write " +:+ Abs output +:+ LF);
         Create output; WriteDB output domainMap;
         Create cnOutput; WriteDB cnOutput (cnDomainMap domainMap);
         RemoveAll ruleSetOutput; MkdirAll ruleSetOutput] ++
        (range domainMap ≫= rule_set_events ruleSetOutput) ++
        [Close cnOutput; Close output] ∧
    ∀ code domains, domainMap !! code = Some domains →
      ∃ t1 t2, t = t1 ++ rule_set_events ruleSetOutput (code, domains) ++ t2.
Proof.
  intros Hrange. unfold generate_in_order.
  intros (vData & ? & ? & [= <- Hdl] & Hk & ->)%bind_Ok_inv.
  apply bind_Ok_inv in Hk as (domainMap & ? & ? & [= <- Hparse] & Hk & ->).
  exists vData, domainMap. split; [done|]. split; [done|].
  apply bind_Ok_inv in Hk as (? & ? & ? & [= <- <-] & Hk & ->).
  apply bind_Ok_inv in Hk as (? & ? & ? & [-> _]%perform_Ok_inv & Hk & ->).
  apply defer_Ok_inv in Hk as (? & Hk & ->).
  apply bind_Ok_inv in Hk as (? & ? & ? & [-> _]%perform_Ok_inv & Hk & ->).
  apply bind_Ok_inv in Hk as (? & ? & ? & [-> _]%perform_Ok_inv & Hk & ->).
  apply defer_Ok_inv in Hk as (? & Hk & ->).
  apply bind_Ok_inv in Hk as (? & ? & ? & [-> _]%perform_Ok_inv & Hk & ->).
  apply bind_Ok_inv in Hk as (? & ? & ? & [= <- <-] & Hk & ->).
  apply bind_Ok_inv in Hk as (? & ? & ? & [-> _]%perform_Ok_inv & Hk & ->).
  apply (for_each_Ok_inv _ (rule_set_events ruleSetOutput)) in Hk as ->;
    [|intros kv t' u'; apply write_rule_set_Ok_inv].
  match goal with
  | |- ?lhs = _ ∧ _ =>
      assert (lhs =
        [Download release; Stderr ("write " +:+ Abs output +:+ LF);
         Create output; WriteDB output domainMap;
         Create cnOutput; WriteDB cnOutput (cnDomainMap domainMap);
         RemoveAll ruleSetOutput; MkdirAll ruleSetOutput] ++
        (range domainMap ≫= rule_set_events ruleSetOutput) ++
        [Close cnOutput; Close output]) as Hshape
        by (simpl; by rewrite <-!app_assoc)
  end.
  rewrite Hshape. split; [done|].
  intros code domains Hlook. by apply rule_set_events_in_trace.
Qed.

(** X21. §4.6: when the download and the decoding succeed and no write
    fails, [generate] returns no error, whatever the order in which the run
    ranges over the map, and its calls are: the full map written, then the
    subset map, then, the rule-set directory removed and made anew, the two
    rule-set files of the categories in the order ranged, each compiled
    from the category's item list, and the two databases closed last; the
    two rule sets of every category of the map are among them. *)
Theorem generate_ok
    (range : gmap string (list Item.t) → list (string * list Item.t))
    (release : RepositoryRelease.t) (output cnOutput ruleSetOutput : string)
    (vData : list byte) (domainMap : gmap string (list Item.t)) :
  ranges range →
  download release = Ok vData → parse vData = Ok domainMap →
  (∀ ev, io_error ev = None) →
  generate_in_order range release output cnOutput ruleSetOutput =
  ([Download release; Stderr ("write " +:+ Abs output +:+ LF);
    Create output; WriteDB output domainMap;
    Create cnOutput; WriteDB cnOutput (cnDomainMap domainMap);
    RemoveAll ruleSetOutput; MkdirAll ruleSetOutput] ++
   (range domainMap ≫= rule_set_events ruleSetOutput) ++
   [Close cnOutput; Close output], Ok tt) ∧
  ∀ code domains, domainMap !! code = Some domains →
    ∃ t1 t2,
      (generate_in_order range release output cnOutput ruleSetOutput).1 =
      t1 ++ rule_set_events ruleSetOutput (code, domains) ++ t2.
Proof.
  intros Hrange Hdl Hparse Hio.
  assert (generate_in_order range release output cnOutput ruleSetOutput =
    ([Download release; Stderr ("write " +:+ Abs output +:+ LF);
      Create output; WriteDB output domainMap;
      Create cnOutput; WriteDB cnOutput (cnDomainMap domainMap);
      RemoveAll ruleSetOutput; MkdirAll ruleSetOutput] ++
     (range domainMap ≫= rule_set_events ruleSetOutput) ++
     [Close cnOutput; Close output], Ok tt)) as Hrun.
  { unfold generate_in_order.
    rewrite Hdl. unfold call, lift. simpl. rewrite Hparse.
    unfold perform, call, emit, defer. simpl. rewrite !Hio. simpl.
    rewrite (for_each_ok _ (rule_set_events ruleSetOutput))
      by (intros kv; by apply write_rule_set_ok).
    simpl. by rewrite <-!app_assoc. }
  split; [done|]. intros code domains Hlook. rewrite Hrun.
  by apply rule_set_events_in_trace.
Qed.

End GenerateFailures.

(** ** Properties of [release] *)

(** The lines a trace wrote to standard output. *)
Definition outputs (t : list event) : list string :=
  omap (λ ev, match ev with Stdout s => Some s | _ => None end) t.

Lemma outputs_generation (t : list event) :
  Forall (λ ev, generation_event ev = true) t → outputs t = [].
Proof.
  induction 1 as [|ev t Hev _ IH]; [done|].
  destruct ev; simpl in Hev; try done; apply IH.
Qed.

Lemma Forall_trace_bind {A B} (P : event → Prop) (m : M A) (f : A → M B) :
  Forall P m.1 → (∀ a, Forall P (f a).1) → Forall P (m ≫= f).1.
Proof.
  intros Hm Hf. destruct m as [t [a| |]]; simpl in *; try done.
  specialize (Hf a). destruct (f a) as [t' r]. simpl in *. by apply Forall_app.
Qed.

Lemma Forall_trace_defer {A} (P : event → Prop) (ev : event) (body : M A) :
  P ev → Forall P body.1 → Forall P (defer ev body).1.
Proof.
  intros Hev Hb. unfold defer. destruct body as [t r]. simpl in *.
  apply Forall_app. split; [done|]. by constructor.
Qed.

Lemma Forall_trace_for_each {A} (P : event → Prop) (body : A → M unit) (l : list A) :
  (∀ x, Forall P (body x).1) → Forall P (for_each body l).1.
Proof.
  intros Hbody. induction l as [|x l IH]; [by constructor|].
  simpl. apply Forall_trace_bind; [apply Hbody | by intros _].
Qed.

Section ReleasePaths.
Context `{Runtime}.

(** [generate] makes no call but the download, its messages on standard
    error and its work on the file system. *)
Lemma generate_events (release : RepositoryRelease.t)
    (output cnOutput ruleSetOutput : string) :
  Forall (λ ev, generation_event ev = true)
         (generate release output cnOutput ruleSetOutput).1.
Proof.
  assert (∀ ev, generation_event ev = true →
            Forall (λ ev, generation_event ev = true) (perform ev).1) as Hperform
    by (intros ev Hev; by constructor).
  assert (∀ ev, generation_event ev = true →
            Forall (λ ev, generation_event ev = true) (emit ev).1) as Hemit
    by (intros ev Hev; by constructor).
  unfold generate.
  apply Forall_trace_bind; [by constructor|]. intros vData.
  apply Forall_trace_bind; [by constructor|]. intros domainMap.
  apply Forall_trace_bind; [by apply Hemit|]. intros _.
  apply Forall_trace_bind; [by apply Hperform|]. intros _.
  apply Forall_trace_defer; [done|].
  apply Forall_trace_bind; [by apply Hperform|]. intros _.
  apply Forall_trace_bind; [by apply Hperform|]. intros _.
  apply Forall_trace_defer; [done|].
  apply Forall_trace_bind; [by apply Hperform|]. intros _.
  apply Forall_trace_bind; [by apply Hemit|]. intros _.
  apply Forall_trace_bind; [by apply Hperform|]. intros _.
  apply Forall_trace_for_each. intros [code domains]. unfold write_rule_set.
  apply Forall_trace_bind; [by apply Hemit|]. intros _.
  apply Forall_trace_bind; [by apply Hperform|]. intros _.
  apply Forall_trace_bind; [apply Forall_trace_defer; [done|by apply Hperform]|].
  intros _.
  apply Forall_trace_bind; [by apply Hemit|]. intros _.
  apply Forall_trace_bind; [by apply Hperform|]. intros _.
  apply Forall_trace_defer; [done|by apply Hperform].
Qed.

(** X11. If the source release cannot be fetched, [release] returns the
    error of the fetch and has made no other call: the destination is not
    fetched, nothing is generated and no action output is set. *)
Theorem release_source_error (source destination output cnOutput ruleSetOutput : string)
    (e : error) :
  fetch source = Err e →
  release source destination output cnOutput ruleSetOutput = ([Fetch source], Err e).
Proof. intros Hsrc. unfold release. by rewrite Hsrc. Qed.

(** X12. A release name that is nil makes the freshness test panic, before
    any generation, unless NO_SKIP is "true": then the test is not
    evaluated, the names are not read, and [release] goes on to the
    download whatever the two names are. *)
Theorem release_nil_name (source destination output cnOutput ruleSetOutput : string)
    (sourceRelease destinationRelease : RepositoryRelease.t) :
  fetch source = Ok sourceRelease → fetch destination = Ok destinationRelease →
  (Getenv "NO_SKIP" ≠ "true" →
   RepositoryRelease.Name destinationRelease = None ∨
   RepositoryRelease.Name sourceRelease = None →
   ∃ msg, release source destination output cnOutput ruleSetOutput =
          ([Fetch source; Fetch destination], Panic msg)) ∧
  (Getenv "NO_SKIP" = "true" →
   ∃ t r, release source destination output cnOutput ruleSetOutput =
          (Fetch source :: Fetch destination :: Download sourceRelease :: t, r)).
Proof.
  intros Hsrc Hdst. unfold release, already_latest. rewrite Hsrc, Hdst. simpl.
  split.
  - intros Henv%String.eqb_neq Hnil. rewrite Henv.
    destruct destinationRelease as [[d|]], sourceRelease as [[s|]];
      simpl in *; try by eexists.
    by destruct Hnil.
  - intros Henv. rewrite Henv. simpl.
    destruct (generate_trace sourceRelease output cnOutput ruleSetOutput) as [t Ht].
    destruct (generate sourceRelease output cnOutput ruleSetOutput) as [t' [[]| |]];
      simpl in *; subst t'.
    + destruct (deref (RepositoryRelease.Name sourceRelease) ≫= _) as [t'' r] eqn:Hd.
      by eexists _, _.
    + by eexists _, _.
    + by eexists _, _.
Qed.

(** Lines 281-286 of [release]: generation, then the tag output. *)
Definition generate_and_tag (sourceRelease : RepositoryRelease.t)
    (output cnOutput ruleSetOutput : string) : M unit :=
  generate sourceRelease output cnOutput ruleSetOutput;;
  sourceName ← deref (RepositoryRelease.Name sourceRelease);
  setActionOutput "tag" sourceName.

(** The run [m] after the events [t]. *)
Definition after {A} (t : list event) (m : M A) : M A := (t ++ m.1, m.2).

(** The paths through [release]. *)
Lemma release_paths (source destination output cnOutput ruleSetOutput : string) :
  release source destination output cnOutput ruleSetOutput =
  match fetch source with
  | Ok sourceRelease =>
      let rest := generate_and_tag sourceRelease output cnOutput ruleSetOutput in
      match fetch destination with
      | Ok destinationRelease =>
          if String.eqb (Getenv "NO_SKIP") "true"
          then after [Fetch source; Fetch destination] rest
          else
            match RepositoryRelease.Name destinationRelease,
                  RepositoryRelease.Name sourceRelease with
            | Some destinationName, Some sourceName =>
                if Contains destinationName sourceName
                then ([Fetch source; Fetch destination; LogInfo "already latest";
                       Stdout ("::set-output name=skip::true" +:+ LF)], Ok tt)
                else after [Fetch source; Fetch destination] rest
            | _, _ =>
                ([Fetch source; Fetch destination],
                 Panic "invalid memory address or nil pointer dereference")
            end
      | Err _ =>
          after [Fetch source; Fetch destination;
                 LogWarn "missing destination latest release"] rest
      | Panic msg => ([Fetch source; Fetch destination], Panic msg)
      end
  | Err e => ([Fetch source], Err e)
  | Panic msg => ([Fetch source], Panic msg)
  end.
Proof.
  unfold release, already_latest, generate_and_tag, after.
  destruct (fetch source) as [sourceRelease| |]; [|done..].
  destruct (fetch destination) as [[[d|]]| |]; simpl.
  - destruct (String.eqb (Getenv "NO_SKIP") "true"); simpl.
    + by destruct (generate sourceRelease output cnOutput ruleSetOutput ≫= _).
    + destruct sourceRelease as [[s|]]; simpl; [|done].
      destruct (Contains d s); simpl; [done|].
      by destruct (generate _ output cnOutput ruleSetOutput ≫= _).
  - destruct (String.eqb (Getenv "NO_SKIP") "true"); simpl; [|done].
    by destruct (generate sourceRelease output cnOutput ruleSetOutput ≫= _).
  - by destruct (generate sourceRelease output cnOutput ruleSetOutput ≫= _).
  - done.
Qed.

(** What generation and the tag output write to standard output. *)
Lemma generate_and_tag_outputs (sourceRelease : RepositoryRelease.t)
    (output cnOutput ruleSetOutput : string) :
  ((generate_and_tag sourceRelease output cnOutput ruleSetOutput).2 = Ok tt →
     ∃ sourceName, sourceRelease = RepositoryRelease.mk (Some sourceName) ∧
       outputs (generate_and_tag sourceRelease output cnOutput ruleSetOutput).1 =
         ["::set-output name=tag::" +:+ sourceName +:+ LF]) ∧
  ((generate_and_tag sourceRelease output cnOutput ruleSetOutput).2 ≠ Ok tt →
     outputs (generate_and_tag sourceRelease output cnOutput ruleSetOutput).1 = []).
Proof.
  unfold generate_and_tag.
  pose proof (outputs_generation _
    (generate_events sourceRelease output cnOutput ruleSetOutput)) as Hgen.
  destruct (generate sourceRelease output cnOutput ruleSetOutput) as [t [[]| |]];
    simpl in *; [|by split..].
  destruct sourceRelease as [[sourceName|]]; simpl.
  - unfold outputs in *. rewrite omap_app, Hgen. simpl. split; [|done].
    intros _. by exists sourceName.
  - rewrite app_nil_r. by split.
Qed.

(** X13. The action output is set only on success, and once: a run of
    [release] that returns no error has written exactly one line to
    standard output, either skip=true or tag= followed by the name of the
    source release; a run that returns an error or panics has written
    none. *)
Theorem release_sets_output_on_success
    (source destination output cnOutput ruleSetOutput : string) :
  ((release source destination output cnOutput ruleSetOutput).2 = Ok tt →
     outputs (release source destination output cnOutput ruleSetOutput).1 =
       ["::set-output name=skip::true" +:+ LF] ∨
     ∃ sourceName,
       fetch source = Ok (RepositoryRelease.mk (Some sourceName)) ∧
       outputs (release source destination output cnOutput ruleSetOutput).1 =
         ["::set-output name=tag::" +:+ sourceName +:+ LF]) ∧
  ((release source destination output cnOutput ruleSetOutput).2 ≠ Ok tt →
     outputs (release source destination output cnOutput ruleSetOutput).1 = []).
Proof.
  rewrite release_paths.
  destruct (fetch source) as [sourceRelease| |]; [|by split..].
  pose proof (generate_and_tag_outputs sourceRelease output cnOutput ruleSetOutput)
    as [Hok Hfail].
  set (rest := generate_and_tag sourceRelease output cnOutput ruleSetOutput) in *.
  assert (∀ t, outputs t = [] →
    ((after t rest).2 = Ok tt →
       outputs (after t rest).1 = ["::set-output name=skip::true" +:+ LF] ∨
       ∃ sourceName,
         Ok sourceRelease = Ok (RepositoryRelease.mk (Some sourceName)) ∧
         outputs (after t rest).1 = ["::set-output name=tag::" +:+ sourceName +:+ LF]) ∧
    ((after t rest).2 ≠ Ok tt → outputs (after t rest).1 = [])) as Hafter.
  { intros t Ht. unfold after, outputs in *. simpl. rewrite omap_app, Ht. simpl.
    split; [|done]. intros Hr. right.
    destruct (Hok Hr) as (sourceName & -> & Hout). by exists sourceName. }
  simpl.
  destruct (fetch destination) as [destinationRelease| |].
  - destruct (String.eqb (Getenv "NO_SKIP") "true"); [by apply Hafter|].
    destruct (RepositoryRelease.Name destinationRelease) as [d|]; [|by split].
    destruct (RepositoryRelease.Name sourceRelease) as [s|]; [|by split].
    destruct (Contains d s); [|by apply Hafter].
    split; [by left|done].
  - by apply Hafter.
  - by split.
Qed.

End ReleasePaths.

(** ** The network side of main.go: [init], [fetch], [get], [download] *)

(** [strings.Cut(s, sep)]: [s] around the first occurrence of [sep]. *)
Fixpoint string_drop (n : nat) (s : string) : string :=
  match n, s with
  | S n', String _ s' => string_drop n' s'
  | _, _ => s
  end.

Fixpoint Cut (s sep : string) : option (string * string) :=
  if String.prefix sep s then Some (EmptyString, string_drop (String.length sep) s)
  else
    match s with
    | EmptyString => None
    | String c s' =>
        match Cut s' sep with
        | Some (before, after) => Some (String c before, after)
        | None => None
        end
    end.

(** [strings.SplitN(s, sep, n)] for a separator that is not empty (main.go
    passes "/") and [n ≥ 0]: at most [n] pieces, the last one the unsplit
    rest; no piece when [n] is 0. *)
Fixpoint SplitN (s sep : string) (n : nat) : list string :=
  match n with
  | O => []
  | S O => [s]
  | S n' =>
      match Cut s sep with
      | Some (before, after) => before :: SplitN after sep n'
      | None => [s]
      end
  end.

(** [github.ReleaseAsset], with the two fields [download] reads. *)
Module ReleaseAsset.
Record t := mk { Name : option string; BrowserDownloadURL : option string }.
End ReleaseAsset.

(** The two clients [init] can make: [github.NewClient(nil)], and the
    client of a [BasicAuthTransport] with the token as user name. *)
Inductive Client :=
  | NewClient
  | BasicAuthClient (Username : string).

(** What this side of main.go calls and this development does not embed:
    the environment, the GitHub API, [common.Find] over the assets of a
    release with the name test of lines 61-66, [http.Get] with [io.ReadAll]
    of the body, [hex.EncodeToString] of [sha256.Sum256], the bytes a
    slice expression takes past the length of a slice (a panic when they
    are past its capacity too). *)
Class Network := {
  LookupEnv : string → option string;
  GetLatestRelease : Client → string → string → result RepositoryRelease.t;
  find_asset : RepositoryRelease.t → string → result (option ReleaseAsset.t);
  httpGet : string → result (list byte);
  hex_sha256 : list byte → string;
  past_length : list byte → nat → result (list byte)
}.

(** The slice expression [s[:n]]. *)
Definition slice_to `{Network} (s : list byte) (n : nat) : result (list byte) :=
  if (n <=? length s)%nat then Ok (take n s) else past_length s n.

Arguments slice_to : simpl never.

Module Net.
Section Net.
Context `{Network}.

(** [init] (lines 29-39): the client [fetch] uses. *)
Definition githubClient : Client :=
  match LookupEnv "ACCESS_TOKEN" with
  | None => NewClient
  | Some accessToken => BasicAuthClient accessToken
  end.

(** [fetch] (lines 41-48).  [names[1]] is out of range when [from] has no
    "/"; the index is evaluated before the call. *)
Definition fetch (from : string) : result RepositoryRelease.t :=
  let names := SplitN from "/" 2 in
  match names !! 0%nat with
  | None => Panic "index out of range [0] with length 0"
  | Some owner =>
      match names !! 1%nat with
      | None => Panic "index out of range [1] with length 1"
      | Some repo => GetLatestRelease githubClient owner repo
      end
  end.

(** [get] (lines 50-58). *)
Definition get (downloadURL : option string) : M (list byte) :=
  url ← deref downloadURL;
  emit (LogInfo ("download " +:+ url));;
  lift (httpGet url).

(** [E.New] with [release.Name] among its arguments (lines 68 and 71).
    [release.Name] is a [*string], and the formatter behind [E.New] has no
    case for a pointer: it panics, so the error is never made. *)
Definition New_asset_not_found {A} (release : RepositoryRelease.t) : result A :=
  Panic "unknown value".

(** [download] (lines 60-86). *)
Definition download (release : RepositoryRelease.t) : M (list byte) :=
  geositeAsset ← lift (find_asset release "geosite.dat");
  geositeChecksumAsset ← lift (find_asset release "geosite.dat.sha256sum");
  match geositeAsset with
  | None => lift (New_asset_not_found release)
  | Some geositeAsset =>
      match geositeChecksumAsset with
      | None => lift (New_asset_not_found release)
      | Some geositeChecksumAsset =>
          data ← get (ReleaseAsset.BrowserDownloadURL geositeAsset);
          remoteChecksum ← get (ReleaseAsset.BrowserDownloadURL geositeChecksumAsset);
          let checksum := hex_sha256 data in
          head ← lift (slice_to remoteChecksum 64);
          if String.eqb checksum (String.string_of_list_byte head)
          then mret data
          else lift (Err "checksum mismatch")
      end
  end.

End Net.
End Net.

Lemma prefix_empty (s : string) : String.prefix "" s = true.
Proof. by destruct s. Qed.

Lemma prefix_char (c x : ascii) (s : string) :
  String.prefix (String c "") (String x s) = bool_decide (c = x).
Proof.
  simpl. destruct (Ascii.ascii_dec c x) as [->|Hne].
  - by rewrite prefix_empty, bool_decide_eq_true_2.
  - by rewrite bool_decide_eq_false_2.
Qed.

(** Without an occurrence of the separator there is nothing to cut. *)
Lemma Cut_None (s sep : string) : Contains s sep = false → Cut s sep = None.
Proof.
  induction s as [|c s IH].
  - rewrite Contains_empty. simpl. by intros ->.
  - rewrite Contains_String. intros [Hp Hs]%orb_false_iff.
    change (Cut (String c s) sep) with
      (if String.prefix sep (String c s)
       then Some (EmptyString, string_drop (String.length sep) (String c s))
       else match Cut s sep with
            | Some (before, after) => Some (String c before, after)
            | None => None
            end).
    by rewrite Hp, IH.
Qed.

(** A one-byte separator cuts at its first occurrence. *)
Lemma Cut_char_first (c : ascii) (before after : string) :
  Contains before (String c "") = false →
  Cut (before +:+ String c "" +:+ after) (String c "") = Some (before, after).
Proof.
  induction before as [|x before IH].
  - intros _. rewrite app_empty, app_String, app_empty.
    change (Cut (String c after) (String c "")) with
      (if String.prefix (String c "") (String c after)
       then Some (EmptyString, after)
       else match Cut after (String c "") with
            | Some (before, after) => Some (String c before, after)
            | None => None
            end).
    by rewrite prefix_char, bool_decide_eq_true_2.
  - rewrite Contains_String, prefix_char. intros [Hx Hb]%orb_false_iff.
    rewrite app_String.
    change (Cut (String x (before +:+ String c "" +:+ after)) (String c "")) with
      (if String.prefix (String c "") (String x (before +:+ String c "" +:+ after))
       then Some (EmptyString, before +:+ String c "" +:+ after)
       else match Cut (before +:+ String c "" +:+ after) (String c "") with
            | Some (b, a) => Some (String x b, a)
            | None => None
            end).
    by rewrite prefix_char, Hx, IH.
Qed.

Section NetProperties.
Context `{Network}.

(** X14. [fetch] on a name without "/" panics on [names[1]]: the name is
    not a repository path, and the GitHub API is not called.  Whatever the
    client and the API, the outcome is the panic. *)
Theorem fetch_without_slash (from : string) :
  (¬ ∃ owner repo, from = owner +:+ "/" +:+ repo) →
  Net.fetch from = Panic "index out of range [1] with length 1".
Proof.
  intros Hns%Contains_false. unfold Net.fetch. simpl.
  by rewrite (Cut_None from "/" Hns).
Qed.

(** X15. [fetch] splits the name at its first "/": with an owner that has
    no "/", the latest release of that owner's repository is asked for,
    where the repository name is all that follows, further "/" included;
    the result of the API call, release or error, is returned as it is. *)
Theorem fetch_splits_at_first_slash (owner repo : string) :
  (¬ ∃ pre post, owner = pre +:+ "/" +:+ post) →
  Net.fetch (owner +:+ "/" +:+ repo) = GetLatestRelease Net.githubClient owner repo.
Proof.
  intros Hns%Contains_false. unfold Net.fetch. simpl.
  by rewrite (Cut_char_first "/" owner repo Hns).
Qed.


(** X17. [download] returns only verified data: if it returns a blob, the
    blob is the body of the download URL of the geosite asset, the checksum
    file was downloaded after it, and the hexadecimal SHA-256 of the blob
    equals the first 64 bytes of the checksum file.  The two downloads are
    the only calls logged. *)
Theorem download_verified (release : RepositoryRelease.t) (t : list event)
    (data : list byte) :
  Net.download release = (t, Ok data) →
  ∃ geositeAsset geositeChecksumAsset url checksumURL remoteChecksum head,
    find_asset release "geosite.dat" = Ok (Some geositeAsset) ∧
    find_asset release "geosite.dat.sha256sum" = Ok (Some geositeChecksumAsset) ∧
    ReleaseAsset.BrowserDownloadURL geositeAsset = Some url ∧
    ReleaseAsset.BrowserDownloadURL geositeChecksumAsset = Some checksumURL ∧
    httpGet url = Ok data ∧ httpGet checksumURL = Ok remoteChecksum ∧
    slice_to remoteChecksum 64 = Ok head ∧
    hex_sha256 data = String.string_of_list_byte head ∧
    t = [LogInfo ("download " +:+ url); LogInfo ("download " +:+ checksumURL)].
Proof.
  unfold Net.download, Net.get.
  destruct (find_asset release "geosite.dat") as [[geositeAsset|]| |],
    (find_asset release "geosite.dat.sha256sum") as [[geositeChecksumAsset|]| |];
    simpl; try done.
  destruct (ReleaseAsset.BrowserDownloadURL geositeAsset) as [url|] eqn:Hurl;
    simpl; [|done].
  destruct (httpGet url) as [data'| |] eqn:Hdata; simpl; [|done..].
  destruct (ReleaseAsset.BrowserDownloadURL geositeChecksumAsset)
    as [checksumURL|] eqn:Hcurl; simpl; [|done].
  destruct (httpGet checksumURL) as [remoteChecksum| |] eqn:Hsum; simpl; [|done..].
  destruct (slice_to remoteChecksum 64) as [head| |] eqn:Hhead; simpl; [|done..].
  destruct (String.eqb (hex_sha256 data') (String.string_of_list_byte head)) eqn:Heq;
    simpl; [|done].
  intros [= <- <-]. apply String.eqb_eq in Heq.
  by exists geositeAsset, geositeChecksumAsset, url, checksumURL, remoteChecksum, head.
Qed.

(** X18. Once both files are downloaded, only the first 64 bytes of the
    checksum file count: with a checksum file of at least 64 bytes,
    [download] returns the blob when its hexadecimal SHA-256 is those 64
    bytes, and the error "checksum mismatch" otherwise; what follows them
    in the file is not read. *)
Theorem download_compares_64_bytes (release : RepositoryRelease.t)
    (geositeAsset geositeChecksumAsset : ReleaseAsset.t) (url checksumURL : string)
    (data remoteChecksum : list byte) :
  find_asset release "geosite.dat" = Ok (Some geositeAsset) →
  find_asset release "geosite.dat.sha256sum" = Ok (Some geositeChecksumAsset) →
  ReleaseAsset.BrowserDownloadURL geositeAsset = Some url →
  ReleaseAsset.BrowserDownloadURL geositeChecksumAsset = Some checksumURL →
  httpGet url = Ok data → httpGet checksumURL = Ok remoteChecksum →
  (64 ≤ length remoteChecksum)%nat →
  Net.download release =
  ([LogInfo ("download " +:+ url); LogInfo ("download " +:+ checksumURL)],
   if decide (hex_sha256 data = String.string_of_list_byte (take 64 remoteChecksum))
   then Ok data else Err "checksum mismatch").
Proof.
  intros Hg Hc Hurl Hcurl Hdata Hsum Hlen.
  unfold Net.download, Net.get. rewrite Hg, Hc. simpl.
  rewrite Hurl. simpl. rewrite Hdata. simpl. rewrite Hcurl. simpl. rewrite Hsum.
  simpl. unfold slice_to.
  rewrite (proj2 (Nat.leb_le 64 (length remoteChecksum)) Hlen). simpl.
  destruct (decide (hex_sha256 data = _)) as [Heq|Hne].
  - apply String.eqb_eq in Heq. by rewrite Heq.
  - apply String.eqb_neq in Hne. by rewrite Hne.
Qed.

(** X19. When the download of the blob fails, [download] returns that
    error and does not ask for the checksum file. *)
Theorem download_blob_error (release : RepositoryRelease.t)
    (geositeAsset geositeChecksumAsset : ReleaseAsset.t) (url : string) (e : error) :
  find_asset release "geosite.dat" = Ok (Some geositeAsset) →
  find_asset release "geosite.dat.sha256sum" = Ok (Some geositeChecksumAsset) →
  ReleaseAsset.BrowserDownloadURL geositeAsset = Some url →
  httpGet url = Err e →
  Net.download release = ([LogInfo ("download " +:+ url)], Err e).
Proof.
  intros Hg Hc Hurl Hdata. unfold Net.download, Net.get. rewrite Hg, Hc. simpl.
  rewrite Hurl. simpl. by rewrite Hdata.
Qed.

(** main.go with its own [fetch] and [download]: the runtime [R] for the
    rest, the environment read through [LookupEnv] ([os.Getenv] gives ""
    for a variable that is not set).  In the trace of [release] and
    [generate] the events [Fetch] and [Download] stand for the whole
    calls. *)
Definition network_runtime (R : Runtime) : Runtime := {|
  ToLower := @ToLower R;
  Unmarshal := @Unmarshal R;
  Getenv := λ name, default "" (LookupEnv name);
  fetch := Net.fetch;
  download := λ release, (Net.download release).2;
  Abs := @Abs R;
  Join := @Join R;
  io_error := @io_error R
|}.

(** X20. [release] on a source that is not an owner/repository path stops
    at the first fetch with the panic of [fetch]: the destination is not
    looked at and nothing is generated. *)
Theorem release_bad_source (R : Runtime)
    (source destination output cnOutput ruleSetOutput : string) :
  (¬ ∃ owner repo, source = owner +:+ "/" +:+ repo) →
  @release (network_runtime R) source destination output cnOutput ruleSetOutput =
  ([Fetch source], Panic "index out of range [1] with length 1").
Proof.
  intros Hns%Contains_false. unfold release. simpl. unfold Net.fetch. simpl.
  by rewrite (Cut_None source "/" Hns).
Qed.

End NetProperties.

(** ** The further properties on concrete runs *)

(** A runtime with scripted collaborators: the releases [fetch] gives, the
    value of NO_SKIP, the calls that fail and the decoded feed. *)
Definition scripted_runtime (releases : string → result RepositoryRelease.t)
    (no_skip : string) (io : event → option error) (feed : list GeoSite.t)
    : Runtime := {|
  ToLower := ToLowerASCII;
  Unmarshal := λ _, Ok feed;
  Getenv := λ name, if String.eqb name "NO_SKIP" then no_skip else "";
  fetch := releases;
  download := λ _, Ok [];
  Abs := λ path, path;
  Join := λ dir name, dir +:+ "/" +:+ name;
  io_error := io
|}.

(** A record with entries under two tags. *)
Definition tagged_record : GeoSite.t :=
  GeoSite.mk "Shop"
    [Domain.mk Domain_Full "ad.example" [Attribute.mk "ads" None];
     Domain.mk Domain_RootDomain "site.example" [Attribute.mk "cn" None];
     Domain.mk Domain_Plain "track" [Attribute.mk "ads" None; Attribute.mk "cn" None]].

Lemma range_order_irrelevant_witness :
  write_attributes (@ToLower plain_runtime (GeoSite.CountryCode tagged_record))
    (reverse (map_to_list (scan_domains (GeoSite.Domain tagged_record)).2))
    (<[@ToLower plain_runtime (GeoSite.CountryCode tagged_record) :=
         Uniq (scan_domains (GeoSite.Domain tagged_record)).1]> ∅) =
  @parse_entry plain_runtime ∅ tagged_record.
Proof.
  apply (@range_order_irrelevant plain_runtime ∅ tagged_record
           (reverse (map_to_list (scan_domains (GeoSite.Domain tagged_record)).2))).
  apply reverse_Permutation.
Defined.

(** The rule-set directory cannot be made. *)
Definition readonly_runtime : Runtime :=
  scripted_runtime (λ _, Ok (RepositoryRelease.mk (Some "202410010000"))) ""
    (λ ev, match ev with MkdirAll _ => Some "read-only file system" | _ => None end)
    [scenario].

Lemma generate_fails_fast_witness :
  (@generate readonly_runtime (RepositoryRelease.mk (Some "202410010000"))
     "geosite.db" "geosite-cn.db" "rule-set").2 = Err "read-only file system" ∧
  Forall is_Close [Close "geosite-cn.db"; Close "geosite.db"].
Proof.
  apply (@generate_fails_fast readonly_runtime
           (RepositoryRelease.mk (Some "202410010000"))
           "geosite.db" "geosite-cn.db" "rule-set"
           [Download (RepositoryRelease.mk (Some "202410010000"));
            Stderr ("write geosite.db" +:+ LF);
            Create "geosite.db";
            WriteDB "geosite.db" (@parse_entries readonly_runtime [scenario]);
            Create "geosite-cn.db";
            WriteDB "geosite-cn.db"
              (cnDomainMap (@parse_entries readonly_runtime [scenario]));
            RemoveAll "rule-set"]
           [Close "geosite-cn.db"; Close "geosite.db"]
           (MkdirAll "rule-set") "read-only file system").
  - vm_compute. reflexivity.
  - reflexivity.
  - reflexivity.
Defined.

Definition tagged_runtime : Runtime := feed_runtime [tagged_record] "" "" "" "".

(** The range that takes the categories in the reverse of [map_to_list]. *)
Definition reverse_range (domainMap : gmap string (list Item.t))
    : list (string * list Item.t) :=
  reverse (map_to_list domainMap).

Lemma reverse_range_ranges : ranges reverse_range.
Proof. intros domainMap. apply reverse_Permutation. Qed.

Lemma generate_success_complete_witness :
  ∃ vGeositeData domainMap,
    @download tagged_runtime (RepositoryRelease.mk (Some "202410010000")) =
      Ok vGeositeData ∧
    @parse tagged_runtime vGeositeData = Ok domainMap ∧
    (@generate_in_order tagged_runtime reverse_range
       (RepositoryRelease.mk (Some "202410010000"))
       "geosite.db" "geosite-cn.db" "rule-set").1 =
    [Download (RepositoryRelease.mk (Some "202410010000"));
     Stderr ("write " +:+ @Abs tagged_runtime "geosite.db" +:+ LF);
     Create "geosite.db"; WriteDB "geosite.db" domainMap;
     Create "geosite-cn.db"; WriteDB "geosite-cn.db" (cnDomainMap domainMap);
     RemoveAll "rule-set"; MkdirAll "rule-set"] ++
    (reverse_range domainMap ≫= @rule_set_events tagged_runtime "rule-set") ++
    [Close "geosite-cn.db"; Close "geosite.db"] ∧
    ∀ code domains, domainMap !! code = Some domains →
      ∃ t1 t2,
        (@generate_in_order tagged_runtime reverse_range
           (RepositoryRelease.mk (Some "202410010000"))
           "geosite.db" "geosite-cn.db" "rule-set").1 =
        t1 ++ @rule_set_events tagged_runtime "rule-set" (code, domains) ++ t2.
Proof.
  apply (@generate_success_complete tagged_runtime reverse_range
           (RepositoryRelease.mk (Some "202410010000"))
           "geosite.db" "geosite-cn.db" "rule-set").
  - apply reverse_range_ranges.
  - vm_compute. reflexivity.
Defined.

Lemma generate_ok_witness :
  @generate_in_order tagged_runtime reverse_range
     (RepositoryRelease.mk (Some "202410010000"))
     "geosite.db" "geosite-cn.db" "rule-set" =
  ([Download (RepositoryRelease.mk (Some "202410010000"));
    Stderr ("write " +:+ @Abs tagged_runtime "geosite.db" +:+ LF);
    Create "geosite.db";
    WriteDB "geosite.db" (@parse_entries tagged_runtime [tagged_record]);
    Create "geosite-cn.db";
    WriteDB "geosite-cn.db" (cnDomainMap (@parse_entries tagged_runtime [tagged_record]));
    RemoveAll "rule-set"; MkdirAll "rule-set"] ++
   (reverse_range (@parse_entries tagged_runtime [tagged_record])
      ≫= @rule_set_events tagged_runtime "rule-set") ++
   [Close "geosite-cn.db"; Close "geosite.db"], Ok tt) ∧
  ∀ code domains,
    @parse_entries tagged_runtime [tagged_record] !! code = Some domains →
    ∃ t1 t2,
      (@generate_in_order tagged_runtime reverse_range
         (RepositoryRelease.mk (Some "202410010000"))
         "geosite.db" "geosite-cn.db" "rule-set").1 =
      t1 ++ @rule_set_events tagged_runtime "rule-set" (code, domains) ++ t2.
Proof.
  exact (@generate_ok tagged_runtime reverse_range
           (RepositoryRelease.mk (Some "202410010000"))
           "geosite.db" "geosite-cn.db" "rule-set" []
           (@parse_entries tagged_runtime [tagged_record])
           reverse_range_ranges eq_refl eq_refl (λ _, eq_refl)).
Defined.

(** With three categories the reversed range writes the rule sets in
    another order than [generate] does. *)
Example range_order_shows :
  (@generate_in_order tagged_runtime reverse_range
     (RepositoryRelease.mk (Some "202410010000"))
     "geosite.db" "geosite-cn.db" "rule-set").1 ≠
  (@generate tagged_runtime (RepositoryRelease.mk (Some "202410010000"))
     "geosite.db" "geosite-cn.db" "rule-set").1.
Proof. vm_compute. discriminate. Qed.

(** No release can be fetched. *)
Definition offline_runtime : Runtime :=
  scripted_runtime (λ _, Err "404 Not Found") "" (λ _, None) [].

Lemma release_source_error_witness :
  @release offline_runtime "Loyalsoldier/v2ray-rules-dat" "minoriazure/sing-geosite"
     "geosite.db" "geosite-cn.db" "rule-set" =
  ([Fetch "Loyalsoldier/v2ray-rules-dat"], Err "404 Not Found").
Proof.
  exact (@release_source_error offline_runtime "Loyalsoldier/v2ray-rules-dat"
           "minoriazure/sing-geosite" "geosite.db" "geosite-cn.db" "rule-set"
           "404 Not Found" eq_refl).
Defined.

(** The destination repository has no release yet. *)
Definition first_run_runtime : Runtime :=
  scripted_runtime
    (λ from, if String.eqb from "Loyalsoldier/v2ray-rules-dat"
             then Ok (RepositoryRelease.mk (Some "202410010000"))
             else Err "404 Not Found")
    "" (λ _, None) [scenario].

Lemma release_without_destination_witness :
  @release first_run_runtime "Loyalsoldier/v2ray-rules-dat" "minoriazure/sing-geosite"
     "geosite.db" "geosite-cn.db" "rule-set" =
  (([Fetch "Loyalsoldier/v2ray-rules-dat"; Fetch "minoriazure/sing-geosite";
     LogWarn "missing destination latest release"], Ok tt) ;;
   @generate first_run_runtime (RepositoryRelease.mk (Some "202410010000"))
     "geosite.db" "geosite-cn.db" "rule-set";;
   sourceName ← deref (RepositoryRelease.Name (RepositoryRelease.mk (Some "202410010000")));
   @setActionOutput "tag" sourceName).
Proof.
  exact (@release_without_destination first_run_runtime
           "Loyalsoldier/v2ray-rules-dat" "minoriazure/sing-geosite"
           "geosite.db" "geosite-cn.db" "rule-set"
           (RepositoryRelease.mk (Some "202410010000")) "404 Not Found"
           eq_refl eq_refl).
Defined.

(** The releases carry no name. *)
Definition nameless_runtime : Runtime :=
  scripted_runtime (λ _, Ok (RepositoryRelease.mk None)) "" (λ _, None) [].

Lemma release_nil_name_witness :
  ∃ msg,
    @release nameless_runtime "Loyalsoldier/v2ray-rules-dat" "minoriazure/sing-geosite"
       "geosite.db" "geosite-cn.db" "rule-set" =
    ([Fetch "Loyalsoldier/v2ray-rules-dat"; Fetch "minoriazure/sing-geosite"],
     Panic msg).
Proof.
  refine (proj1 (@release_nil_name nameless_runtime "Loyalsoldier/v2ray-rules-dat"
                   "minoriazure/sing-geosite" "geosite.db" "geosite-cn.db" "rule-set"
                   (RepositoryRelease.mk None) (RepositoryRelease.mk None)
                   eq_refl eq_refl) _ _).
  - discriminate.
  - by left.
Defined.

(** A release with the blob and its checksum file; the digest of every
    blob is the one the checksum file gives. *)
Definition digest : string :=
  "9f86d081884c7d659a2feaa0c55ad015a3bf4f1b2b0b822cd15d6c15b0f00a08".

Definition scripted_network (assets : string → result (option ReleaseAsset.t))
    (bodies : string → result (list byte)) : Network := {|
  LookupEnv := λ _, None;
  GetLatestRelease := λ _ owner repo,
    Ok (RepositoryRelease.mk (Some (owner +:+ " " +:+ repo)));
  find_asset := λ _ name, assets name;
  httpGet := bodies;
  hex_sha256 := λ _, digest;
  past_length := λ _ _, Panic "slice bounds out of range"
|}.

Definition blob_asset : ReleaseAsset.t :=
  ReleaseAsset.mk (Some "geosite.dat") (Some "https://example.org/geosite.dat").

Definition checksum_asset : ReleaseAsset.t :=
  ReleaseAsset.mk (Some "geosite.dat.sha256sum")
                  (Some "https://example.org/geosite.dat.sha256sum").

Definition checksum_file : list byte :=
  String.list_byte_of_string (digest +:+ "  geosite.dat" +:+ LF).

Definition good_network : Network :=
  scripted_network
    (λ name, Ok (if String.eqb name "geosite.dat" then Some blob_asset
                 else Some checksum_asset))
    (λ url, Ok (if String.eqb url "https://example.org/geosite.dat"
                then [x74; x65; x73; x74] else checksum_file)).


Definition broken_network : Network :=
  scripted_network
    (λ name, Ok (if String.eqb name "geosite.dat" then Some blob_asset
                 else Some checksum_asset))
    (λ _, Err "connection reset").

Lemma fetch_without_slash_witness :
  @Net.fetch good_network "geosite" = Panic "index out of range [1] with length 1".
Proof.
  apply (@fetch_without_slash good_network "geosite").
  apply Contains_false. reflexivity.
Defined.

Lemma fetch_splits_at_first_slash_witness :
  @Net.fetch good_network ("Loyalsoldier" +:+ "/" +:+ "v2ray-rules-dat/extra") =
  @GetLatestRelease good_network (@Net.githubClient good_network)
     "Loyalsoldier" "v2ray-rules-dat/extra".
Proof.
  apply (@fetch_splits_at_first_slash good_network "Loyalsoldier"
           "v2ray-rules-dat/extra").
  apply Contains_false. reflexivity.
Defined.


Lemma download_verified_witness :
  ∃ geositeAsset geositeChecksumAsset url checksumURL remoteChecksum head,
    @find_asset good_network (RepositoryRelease.mk (Some "202410010000"))
       "geosite.dat" = Ok (Some geositeAsset) ∧
    @find_asset good_network (RepositoryRelease.mk (Some "202410010000"))
       "geosite.dat.sha256sum" = Ok (Some geositeChecksumAsset) ∧
    ReleaseAsset.BrowserDownloadURL geositeAsset = Some url ∧
    ReleaseAsset.BrowserDownloadURL geositeChecksumAsset = Some checksumURL ∧
    @httpGet good_network url = Ok [x74; x65; x73; x74] ∧
    @httpGet good_network checksumURL = Ok remoteChecksum ∧
    @slice_to good_network remoteChecksum 64 = Ok head ∧
    @hex_sha256 good_network [x74; x65; x73; x74] = String.string_of_list_byte head ∧
    [LogInfo "download https://example.org/geosite.dat";
     LogInfo "download https://example.org/geosite.dat.sha256sum"] =
    [LogInfo ("download " +:+ url); LogInfo ("download " +:+ checksumURL)].
Proof.
  apply (@download_verified good_network (RepositoryRelease.mk (Some "202410010000"))).
  vm_compute. reflexivity.
Defined.

Lemma download_compares_64_bytes_witness :
  @Net.download good_network (RepositoryRelease.mk (Some "202410010000")) =
  ([LogInfo ("download " +:+ "https://example.org/geosite.dat");
    LogInfo ("download " +:+ "https://example.org/geosite.dat.sha256sum")],
   if decide (@hex_sha256 good_network [x74; x65; x73; x74] =
              String.string_of_list_byte (take 64 checksum_file))
   then Ok [x74; x65; x73; x74] else Err "checksum mismatch").
Proof.
  refine (@download_compares_64_bytes good_network
            (RepositoryRelease.mk (Some "202410010000")) blob_asset checksum_asset
            "https://example.org/geosite.dat"
            "https://example.org/geosite.dat.sha256sum"
            [x74; x65; x73; x74] checksum_file
            eq_refl eq_refl eq_refl eq_refl eq_refl eq_refl _).
  vm_compute. lia.
Defined.

Lemma download_blob_error_witness :
  @Net.download broken_network (RepositoryRelease.mk (Some "202410010000")) =
  ([LogInfo ("download " +:+ "https://example.org/geosite.dat")],
   Err "connection reset").
Proof.
  exact (@download_blob_error broken_network
           (RepositoryRelease.mk (Some "202410010000")) blob_asset checksum_asset
           "https://example.org/geosite.dat" "connection reset"
           eq_refl eq_refl eq_refl eq_refl).
Defined.

Lemma release_bad_source_witness :
  @release (@network_runtime good_network plain_runtime) "geosite"
     "minoriazure/sing-geosite" "geosite.db" "geosite-cn.db" "rule-set" =
  ([Fetch "geosite"], Panic "index out of range [1] with length 1").
Proof.
  apply (@release_bad_source good_network plain_runtime "geosite"
           "minoriazure/sing-geosite" "geosite.db" "geosite-cn.db" "rule-set").
  apply Contains_false. reflexivity.
Defined.

(** [SplitN] on the names [main] passes and on some edge cases. *)
Example SplitN_examples :
  SplitN "Loyalsoldier/v2ray-rules-dat" "/" 2 = ["Loyalsoldier"; "v2ray-rules-dat"] ∧
  SplitN "a/b/c" "/" 2 = ["a"; "b/c"] ∧
  SplitN "a/b/c" "/" 3 = ["a"; "b"; "c"] ∧
  SplitN "abc" "/" 2 = ["abc"] ∧
  SplitN "" "/" 2 = [""] ∧
  SplitN "/x" "/" 2 = [""; "x"] ∧
  SplitN "a/b" "/" 0 = [].
Proof. by repeat split. Qed.
